(** * go-nonce: single-use, time-bound tokens

    A shallow embedding of the package [nonce] (service.go,
    service.inmem.go, service.sqlx.go) and the properties of its
    lifecycle operations.

    Conventions of the embedding.
    - A Go [string] is a [string] (a sequence of 8-bit characters, which
      is what Go's [len] counts); a [[]byte] is a [list Z] of values
      below 256.
    - [uuid.UUID] (a [[16]byte]) is the 128-bit number its bytes spell in
      big-endian order; [uuid.Nil] is 0.
    - [time.Time] is a number of nanoseconds since the Unix epoch and
      [time.Duration] a number of nanoseconds.
    - Everything the code draws from outside (the random salt, the clock,
      the fresh identifier of [uuid.NewV4], the order in which a [range]
      visits a map, the outcome of each database call) is an explicit
      argument of the function that consumes it. *)

From Stdlib Require Import ZArith NArith Ascii String List Lia DecimalString.
From stdpp Require Import base tactics option list strings gmap fin_maps.

Local Open Scope Z_scope.

(* ===================================================================== *)
(** * Bytes and text *)
(* ===================================================================== *)

Definition byte_of_char (c : ascii) : Z := Z.of_N (N_of_ascii c).

Definition char_of_byte (b : Z) : ascii := ascii_of_N (Z.to_N (b mod 256)).

(** [[]byte(s)] *)
Definition bytes_of_string (s : string) : list Z :=
  map byte_of_char (list_ascii_of_string s).

(** [string(bs)] *)
Definition string_of_bytes (bs : list Z) : string :=
  string_of_list_ascii (map char_of_byte bs).

(** [len(s)] *)
Definition len (s : string) : Z := Z.of_nat (String.length s).

(* --------------------------------------------------------------------- *)
(** ** encoding/base64 *)

Module base64.

Definition encodeStd : string :=
  "ABCDEFGHIJKLMNOPQRSTUVWXYZabcdefghijklmnopqrstuvwxyz0123456789+/".

Definition encodeURL : string :=
  "ABCDEFGHIJKLMNOPQRSTUVWXYZabcdefghijklmnopqrstuvwxyz0123456789-_".

Definition StdPadding : ascii := "="%char.

(** The character of a 6-bit group. *)
Definition enc (alphabet : string) (v : Z) : ascii :=
  match String.get (Z.to_nat (Z.land v 63)) alphabet with
  | Some c => c
  | None => StdPadding
  end.

(** [Encoding.EncodeToString] with the standard padding: three source
    bytes give four characters, and a remainder of one or two bytes is
    padded to four. *)
Fixpoint EncodeToString (alphabet : string) (src : list Z) : string :=
  match src with
  | [] => EmptyString
  | [a] =>
      let v := Z.shiftl a 16 in
      String (enc alphabet (Z.shiftr v 18))
        (String (enc alphabet (Z.shiftr v 12))
           (String StdPadding (String StdPadding EmptyString)))
  | [a; b] =>
      let v := Z.lor (Z.shiftl a 16) (Z.shiftl b 8) in
      String (enc alphabet (Z.shiftr v 18))
        (String (enc alphabet (Z.shiftr v 12))
           (String (enc alphabet (Z.shiftr v 6))
              (String StdPadding EmptyString)))
  | a :: b :: c :: rest =>
      let v := Z.lor (Z.lor (Z.shiftl a 16) (Z.shiftl b 8)) c in
      String (enc alphabet (Z.shiftr v 18))
        (String (enc alphabet (Z.shiftr v 12))
           (String (enc alphabet (Z.shiftr v 6))
              (String (enc alphabet v)
                 (EncodeToString alphabet rest))))
  end.

Definition StdEncoding := EncodeToString encodeStd.
Definition URLEncoding := EncodeToString encodeURL.

End base64.

(* --------------------------------------------------------------------- *)
(** ** crypto/sha512 (FIPS 180-4, SHA-512) *)

Module sha512.

Definition w64 : Z := 2 ^ 64.

Definition add64 (x y : Z) : Z := (x + y) mod w64.

Definition rotr (n x : Z) : Z :=
  Z.lor (Z.shiftr x n) (Z.shiftl x (64 - n) mod w64).

Definition not64 (x : Z) : Z := Z.lxor x (w64 - 1).

Definition Ch (x y z : Z) : Z := Z.lxor (Z.land x y) (Z.land (not64 x) z).
Definition Maj (x y z : Z) : Z :=
  Z.lxor (Z.lxor (Z.land x y) (Z.land x z)) (Z.land y z).
Definition Sigma0 (x : Z) : Z :=
  Z.lxor (Z.lxor (rotr 28 x) (rotr 34 x)) (rotr 39 x).
Definition Sigma1 (x : Z) : Z :=
  Z.lxor (Z.lxor (rotr 14 x) (rotr 18 x)) (rotr 41 x).
Definition sigma0 (x : Z) : Z :=
  Z.lxor (Z.lxor (rotr 1 x) (rotr 8 x)) (Z.shiftr x 7).
Definition sigma1 (x : Z) : Z :=
  Z.lxor (Z.lxor (rotr 19 x) (rotr 61 x)) (Z.shiftr x 6).

Definition K : list Z :=
  [ 0x428a2f98d728ae22; 0x7137449123ef65cd; 0xb5c0fbcfec4d3b2f; 0xe9b5dba58189dbbc;
    0x3956c25bf348b538; 0x59f111f1b605d019; 0x923f82a4af194f9b; 0xab1c5ed5da6d8118;
    0xd807aa98a3030242; 0x12835b0145706fbe; 0x243185be4ee4b28c; 0x550c7dc3d5ffb4e2;
    0x72be5d74f27b896f; 0x80deb1fe3b1696b1; 0x9bdc06a725c71235; 0xc19bf174cf692694;
    0xe49b69c19ef14ad2; 0xefbe4786384f25e3; 0x0fc19dc68b8cd5b5; 0x240ca1cc77ac9c65;
    0x2de92c6f592b0275; 0x4a7484aa6ea6e483; 0x5cb0a9dcbd41fbd4; 0x76f988da831153b5;
    0x983e5152ee66dfab; 0xa831c66d2db43210; 0xb00327c898fb213f; 0xbf597fc7beef0ee4;
    0xc6e00bf33da88fc2; 0xd5a79147930aa725; 0x06ca6351e003826f; 0x142929670a0e6e70;
    0x27b70a8546d22ffc; 0x2e1b21385c26c926; 0x4d2c6dfc5ac42aed; 0x53380d139d95b3df;
    0x650a73548baf63de; 0x766a0abb3c77b2a8; 0x81c2c92e47edaee6; 0x92722c851482353b;
    0xa2bfe8a14cf10364; 0xa81a664bbc423001; 0xc24b8b70d0f89791; 0xc76c51a30654be30;
    0xd192e819d6ef5218; 0xd69906245565a910; 0xf40e35855771202a; 0x106aa07032bbd1b8;
    0x19a4c116b8d2d0c8; 0x1e376c085141ab53; 0x2748774cdf8eeb99; 0x34b0bcb5e19b48a8;
    0x391c0cb3c5c95a63; 0x4ed8aa4ae3418acb; 0x5b9cca4f7763e373; 0x682e6ff3d6b2b8a3;
    0x748f82ee5defb2fc; 0x78a5636f43172f60; 0x84c87814a1f0ab72; 0x8cc702081a6439ec;
    0x90befffa23631e28; 0xa4506cebde82bde9; 0xbef9a3f7b2c67915; 0xc67178f2e372532b;
    0xca273eceea26619c; 0xd186b8c721c0c207; 0xeada7dd6cde0eb1e; 0xf57d4f7fee6ed178;
    0x06f067aa72176fba; 0x0a637dc5a2c898a6; 0x113f9804bef90dae; 0x1b710b35131c471b;
    0x28db77f523047d84; 0x32caab7b40c72493; 0x3c9ebe0a15c9bebc; 0x431d67c49c100d4c;
    0x4cc5d4becb3e42b6; 0x597f299cfc657e2a; 0x5fcb6fab3ad6faec; 0x6c44198c4a475817 ].

(** The eight 64-bit chaining words. *)
Record digest := Digest {
  h0 : Z; h1 : Z; h2 : Z; h3 : Z; h4 : Z; h5 : Z; h6 : Z; h7 : Z
}.

Definition init : digest :=
  Digest 0x6a09e667f3bcc908 0xbb67ae8584caa73b 0x3c6ef372fe94f82b
         0xa54ff53a5f1d36f1 0x510e527fade682d1 0x9b05688c2b3e6c1f
         0x1f83d9abfb41bd6b 0x5be0cd19137e2179.

(** One round on the working variables a..h with constant [k] and
    schedule word [w]. *)
Definition round (k w : Z) (s : digest) : digest :=
  let t1 := add64 (add64 (add64 (add64 (h7 s) (Sigma1 (h4 s)))
                            (Ch (h4 s) (h5 s) (h6 s))) k) w in
  let t2 := add64 (Sigma0 (h0 s)) (Maj (h0 s) (h1 s) (h2 s)) in
  Digest (add64 t1 t2) (h0 s) (h1 s) (h2 s)
         (add64 (h3 s) t1) (h4 s) (h5 s) (h6 s).

(** The schedule is kept as a window of the sixteen most recent words:
    [win = W(t) .. W(t+15)], and the next word is
    [W(t+16) = sigma1 W(t+14) + W(t+9) + sigma0 W(t+1) + W(t)]. *)
Definition next_word (win : list Z) : Z :=
  add64 (add64 (add64 (sigma1 (nth 14 win 0)) (nth 9 win 0))
           (sigma0 (nth 1 win 0))) (nth 0 win 0).

Fixpoint rounds (ks : list Z) (win : list Z) (s : digest) : digest :=
  match ks with
  | [] => s
  | k :: ks' =>
      rounds ks' (tl win ++ [next_word win]) (round k (nth 0 win 0) s)
  end.

(** Big-endian 64-bit word of eight bytes, and back. *)
Definition be_word (bs : list Z) : Z :=
  fold_left (fun acc b => acc * 256 + b) bs 0.

Definition word_bytes (x : Z) : list Z :=
  [ Z.land (Z.shiftr x 56) 255; Z.land (Z.shiftr x 48) 255;
    Z.land (Z.shiftr x 40) 255; Z.land (Z.shiftr x 32) 255;
    Z.land (Z.shiftr x 24) 255; Z.land (Z.shiftr x 16) 255;
    Z.land (Z.shiftr x 8) 255;  Z.land x 255 ].

(** A list cut into pieces of [n] elements; [fuel] bounds the number of
    pieces. *)
Fixpoint chunks {A} (fuel n : nat) (l : list A) : list (list A) :=
  match fuel with
  | O => []
  | S fuel' =>
      match l with
      | [] => []
      | _ => firstn n l :: chunks fuel' n (skipn n l)
      end
  end.

(** The block function on one 128-byte block. *)
Definition block (s : digest) (blk : list Z) : digest :=
  let r := rounds K (map be_word (chunks 16 8 blk)) s in
  Digest (add64 (h0 s) (h0 r)) (add64 (h1 s) (h1 r))
         (add64 (h2 s) (h2 r)) (add64 (h3 s) (h3 r))
         (add64 (h4 s) (h4 r)) (add64 (h5 s) (h5 r))
         (add64 (h6 s) (h6 r)) (add64 (h7 s) (h7 r)).

(** Padding: a 1 bit, zeros up to 112 modulo 128, and the 128-bit
    big-endian length in bits. *)
Definition pad (msg : list Z) : list Z :=
  let n := Z.of_nat (length msg) in
  let zeros := Z.to_nat ((111 - n) mod 128) in
  msg ++ [128] ++ repeat 0 zeros
      ++ word_bytes (Z.shiftr (n * 8) 64) ++ word_bytes ((n * 8) mod w64).

Definition digest_bytes (s : digest) : list Z :=
  word_bytes (h0 s) ++ word_bytes (h1 s) ++ word_bytes (h2 s)
    ++ word_bytes (h3 s) ++ word_bytes (h4 s) ++ word_bytes (h5 s)
    ++ word_bytes (h6 s) ++ word_bytes (h7 s).

(** [h := sha512.New(); h.Write(msg); h.Sum(nil)] *)
Definition Sum (msg : list Z) : list Z :=
  let p := pad msg in
  digest_bytes (fold_left block (chunks (length p) 128 p) init).

End sha512.

(** Lower-case hexadecimal of a list of bytes ([hex.Encode]). *)
Definition hexdigit (v : Z) : ascii :=
  match String.get (Z.to_nat (Z.land v 15)) "0123456789abcdef" with
  | Some c => c
  | None => "0"%char
  end.

Fixpoint hex_encode (bs : list Z) : string :=
  match bs with
  | [] => EmptyString
  | b :: bs' => String (hexdigit (Z.shiftr b 4)) (String (hexdigit b) (hex_encode bs'))
  end.


(* --------------------------------------------------------------------- *)
(** ** strings.TrimSpace *)

(** The white space of [unicode.IsSpace], by its UTF-8 encoding. A byte
    sequence that is no well-formed encoding decodes to [RuneError],
    which is no space, so a leading (trailing) space is exactly a leading
    (trailing) occurrence of one of these encodings. *)
Definition asciiSpace (b : Z) : bool :=
  (b =? 9) || (b =? 10) || (b =? 11) || (b =? 12) || (b =? 13) || (b =? 32).

(** U+0085 and U+00A0. *)
Definition space2 (b0 b1 : Z) : bool :=
  (b0 =? 0xC2) && ((b1 =? 0x85) || (b1 =? 0xA0)).

(** U+1680, U+2000 to U+200A, U+2028, U+2029, U+202F, U+205F, U+3000. *)
Definition space3 (b0 b1 b2 : Z) : bool :=
  ((b0 =? 0xE1) && (b1 =? 0x9A) && (b2 =? 0x80))
  || ((b0 =? 0xE2) && (b1 =? 0x80)
      && (((0x80 <=? b2) && (b2 <=? 0x8A))
          || (b2 =? 0xA8) || (b2 =? 0xA9) || (b2 =? 0xAF)))
  || ((b0 =? 0xE2) && (b1 =? 0x81) && (b2 =? 0x9F))
  || ((b0 =? 0xE3) && (b1 =? 0x80) && (b2 =? 0x80)).

(** Dropping the spaces at the front; [s2] and [s3] recognise the two-
    and three-byte spaces in the order the bytes are met. *)
Fixpoint trim (s2 : Z -> Z -> bool) (s3 : Z -> Z -> Z -> bool)
    (bs : list Z) : list Z :=
  match bs with
  | [] => []
  | b0 :: r0 =>
      if asciiSpace b0 then trim s2 s3 r0
      else
        match r0 with
        | [] => bs
        | b1 :: r1 =>
            if s2 b0 b1 then trim s2 s3 r1
            else
              match r1 with
              | [] => bs
              | b2 :: r2 => if s3 b0 b1 b2 then trim s2 s3 r2 else bs
              end
        end
  end.

Definition TrimLeft (bs : list Z) : list Z := trim space2 space3 bs.

(** From the end the bytes of an encoding are met last byte first. *)
Definition TrimRight (bs : list Z) : list Z :=
  rev (trim (fun b1 b0 => space2 b0 b1) (fun b2 b1 b0 => space3 b0 b1 b2)
         (rev bs)).

Definition TrimSpace (s : string) : string :=
  string_of_bytes (TrimRight (TrimLeft (bytes_of_string s))).

(* ===================================================================== *)
(** * service.go *)
(* ===================================================================== *)

(** ** Time, identifiers *)

Definition Time := Z.
Definition Duration := Z.

Definition Nanosecond : Duration := 1.
Definition Millisecond : Duration := 1000000.
Definition Second : Duration := 1000000000.
Definition Minute : Duration := 60 * Second.

(** [t.Unix()] *)
Definition Unix (t : Time) : Z := t / Second.
(** [t.Add(d)] *)
Definition Add (t : Time) (d : Duration) : Time := t + d.
(** [t.Truncate(d)]: [t] rounded down to a multiple of [d]; the zero
    time lies a whole number of seconds before the epoch, so for [Second]
    the multiples are those of the epoch. *)
Definition Truncate (t : Time) (d : Duration) : Time :=
  if d <=? 0 then t else t - t mod d.
(** [t.After(u)], [t.Before(u)] *)
Definition After (t u : Time) : bool := u <? t.
Definition Before (t u : Time) : bool := t <? u.
(** [time.Unix(sec, 0)] *)
Definition time_Unix (sec : Z) : Time := sec * Second.

(** The zero [time.Time]: January 1, year 1, 00:00:00 UTC. *)
Definition zeroTime : Time := -62135596800 * Second.

Definition UUID := Z.

Module uuid.
Definition Nil : UUID := 0.

Definition bytes (u : UUID) : list Z :=
  map (fun i => Z.land (Z.shiftr u (8 * (15 - i))) 255)
      [0;1;2;3;4;5;6;7;8;9;10;11;12;13;14;15].

(** [u.String()]: xxxxxxxx-xxxx-xxxx-xxxx-xxxxxxxxxxxx *)
Definition String (u : UUID) : string :=
  let b := bytes u in
  (hex_encode (firstn 4 b) ++ "-" ++
   hex_encode (firstn 2 (skipn 4 b)) ++ "-" ++
   hex_encode (firstn 2 (skipn 6 b)) ++ "-" ++
   hex_encode (firstn 2 (skipn 8 b)) ++ "-" ++
   hex_encode (skipn 10 b))%string.
End uuid.

(** The verb [%d] on an [int64]. *)
Definition itoa (z : Z) : string := NilZero.string_of_int (Z.to_int z).

(** ** Errors *)

Inductive error : Set :=
| ErrNoToken          (* "no token supplied" *)
| ErrInvalidToken     (* "invalid token" *)
| ErrTokenUsed        (* "duplicate submission" *)
| ErrTokenExpired     (* "token expired" *)
| ErrTokenNotFound    (* "token not found" *)
| ErrRandom           (* the error of helpers.Crypto.GenerateRandomKey *)
| ErrNoRows           (* sql.ErrNoRows *)
| ErrTxDone           (* sql.ErrTxDone *)
| ErrDB.              (* any other error of database/sql *)

#[global] Instance error_eq_dec : EqDecision error.
Proof. solve_decision. Defined.

(** A Go result [(T, error)]: the code returns the zero [T] with every
    error, so only one of the two carries information. *)
Inductive result (A : Type) : Type :=
| Ok (a : A)
| Err (e : error).
Arguments Ok {A} a.
Arguments Err {A} e.

(** ** The Nonce model *)

Record Nonce : Set := mkNonce {
  ID : UUID;
  UserID : UUID;
  Token : string;
  Action : string;
  Salt : string;
  IsUsed : bool;
  IsValid : bool;
  CreatedAt : Z;
  ExpiresAt : Time
}.

#[global] Instance Nonce_eq_dec : EqDecision Nonce.
Proof. solve_decision. Defined.

(** [Nonce{}] *)
Definition zeroNonce : Nonce :=
  mkNonce uuid.Nil uuid.Nil "" "" "" false false 0 zeroTime.

Definition set_ID (n : Nonce) (id : UUID) : Nonce :=
  mkNonce id (UserID n) (Token n) (Action n) (Salt n)
          (IsUsed n) (IsValid n) (CreatedAt n) (ExpiresAt n).
Definition set_IsUsed (n : Nonce) (b : bool) : Nonce :=
  mkNonce (ID n) (UserID n) (Token n) (Action n) (Salt n)
          b (IsValid n) (CreatedAt n) (ExpiresAt n).
Definition set_IsValid (n : Nonce) (b : bool) : Nonce :=
  mkNonce (ID n) (UserID n) (Token n) (Action n) (Salt n)
          (IsUsed n) b (CreatedAt n) (ExpiresAt n).

(** ** checkToken *)

Definition checkToken (token : string) : option error :=
  if len (TrimSpace token) =? 0 then Some ErrNoToken
  else if negb (len token =? 88) then Some ErrInvalidToken
  else None.

(** ** newNonce

    [rnd] is the outcome of [helpers.Crypto.GenerateRandomKey(16)] and
    [now] the reading of [time.Now()]. *)

Definition rawToken (action : string) (uid : UUID) (t : Time) (salt : string)
  : string :=
  (action ++ "::" ++ uuid.String uid ++ "::" ++ itoa (Unix t) ++ "::" ++ salt)%string.

Definition newNonce (rnd : result (list Z)) (now : Time)
    (action : string) (uid : UUID) (expiresIn : Duration) : result Nonce :=
  match rnd with
  | Err e => Err e
  | Ok rawSalt =>
      let salt := base64.StdEncoding rawSalt in
      let t := now in
      let token :=
        base64.URLEncoding (sha512.Sum (bytes_of_string (rawToken action uid t salt))) in
      Ok {| ID := uuid.Nil;
            UserID := uid;
            Token := token;
            Action := action;
            Salt := salt;
            IsUsed := false;
            IsValid := true;
            CreatedAt := Unix t;
            ExpiresAt := Truncate (Add t expiresIn) Second |}
  end.

(** ** checkNonce, at clock reading [now] *)

Definition checkNonce (now : Time) (n : Nonce) (action : string) (uid : UUID)
  : option error :=
  if bool_decide (IsValid n = false ∨ Action n ≠ action ∨ UserID n ≠ uid)
  then Some ErrInvalidToken
  else if bool_decide (IsUsed n = true) then Some ErrTokenUsed
  else if bool_decide (After (ExpiresAt n) now = false) then Some ErrTokenExpired
  else None.


(* ===================================================================== *)
(** * service.inmem.go *)
(* ===================================================================== *)

Module inmem.

(** [inMemStore]: the map under its [RWMutex]. [taken] counts how often
    the mutex has been taken, for reading or for writing: every access
    to the map is made under it. *)
Record inMemStore : Type := mkStore {
  nonceMap : gmap string Nonce;
  taken : nat
}.

Definition Lock (s : inMemStore) : inMemStore :=
  mkStore (nonceMap s) (S (taken s)).
Definition RLock (s : inMemStore) : inMemStore :=
  mkStore (nonceMap s) (S (taken s)).
Definition setMap (s : inMemStore) (m : gmap string Nonce) : inMemStore :=
  mkStore m (taken s).

(** [make(map[string]Nonce)] *)
Definition empty : inMemStore := mkStore ∅ 0.

(** [getNonce] *)
Definition getNonce (token : string) (s : inMemStore)
  : result Nonce * inMemStore :=
  let s := RLock s in
  match nonceMap s !! token with
  | Some n => (Ok n, s)
  | None => (Err ErrTokenNotFound, s)
  end.

(** [saveNonce]; [newid] is the value of [uuid.NewV4()]. *)
Definition saveNonce (newid : UUID) (n : Nonce) (s : inMemStore)
  : Nonce * inMemStore :=
  let n := if bool_decide (ID n = uuid.Nil) then set_ID n newid else n in
  let s := Lock s in
  (n, setMap s (<[Token n := n]> (nonceMap s))).

(** The test of the invalidation loop of [New]. *)
Definition superseded (n v : Nonce) : bool :=
  bool_decide (IsValid v = true ∧ UserID v = UserID n
               ∧ Action v = Action n ∧ ID v ≠ ID n).

(** The test of the collecting loop of [Get]. *)
Definition matches (action : string) (uid : UUID) (n : Nonce) : bool :=
  bool_decide (Action n = action ∧ UserID n = uid).

Section Service.

(** The order in which a [range] statement visits a map. *)
Variable order : gmap string Nonce -> list (string * Nonce).

Definition New (rnd : result (list Z)) (now : Time) (newid : UUID)
    (action : string) (uid : UUID) (expiresIn : Duration) (s : inMemStore)
  : result Nonce * inMemStore :=
  match newNonce rnd now action uid expiresIn with
  | Err e => (Err e, s)
  | Ok n =>
      let '(n, s) := saveNonce newid n s in
      let s := Lock s in
      let m :=
        foldl (fun (m : gmap string Nonce) '(k, v) =>
                 if superseded n v then <[k := set_IsValid v false]> m else m)
              (nonceMap s) (order (nonceMap s)) in
      (Ok n, setMap s m)
  end.

Definition Check (now : Time) (token action : string) (uid : UUID)
    (s : inMemStore) : option error * inMemStore :=
  match checkToken token with
  | Some err => (Some err, s)
  | None =>
      match getNonce token s with
      | (Err err, s) => (Some err, s)
      | (Ok n, s) => (checkNonce now n action uid, s)
      end
  end.

Definition Consume (newid : UUID) (token : string) (s : inMemStore)
  : result Nonce * inMemStore :=
  match checkToken token with
  | Some err => (Err err, s)
  | None =>
      match getNonce token s with
      | (Err err, s) => (Err err, s)
      | (Ok n, s) =>
          if bool_decide (IsUsed n = true) then (Err ErrTokenUsed, s)
          else
            let n := set_IsUsed n true in
            let '(n, s) := saveNonce newid n s in
            (Ok n, s)
      end
  end.

Definition CheckThenConsume (now : Time) (newid : UUID)
    (token action : string) (uid : UUID) (s : inMemStore)
  : result Nonce * inMemStore :=
  match Check now token action uid s with
  | (Some err, s) => (Err err, s)
  | (None, s) => Consume newid token s
  end.

(** The second loop of [Get], over the slice. *)
Definition newest (nonces : list Nonce) (first : Nonce) : Nonce :=
  foldl (fun newestN n =>
           if bool_decide (CreatedAt newestN < CreatedAt n ∧ IsValid n = true)
           then n else newestN)
        first nonces.

Definition Get (action : string) (uid : UUID) (s : inMemStore)
  : result Nonce * inMemStore :=
  (* nonces = make([]Nonce, 1, 1) *)
  let nonces := repeat zeroNonce 1 in
  let s := RLock s in
  let nonces :=
    foldl (fun nonces '(_, n) =>
             if matches action uid n then nonces ++ [n] else nonces)
          nonces (order (nonceMap s)) in
  if bool_decide (length nonces = 0%nat) then (Err ErrTokenNotFound, s)
  else if bool_decide (length nonces = 1%nat) then (Ok (nth 0 nonces zeroNonce), s)
  else
    let newestN := newest nonces (nth 0 nonces zeroNonce) in
    if bool_decide (IsValid newestN = false) then (Err ErrTokenNotFound, s)
    else (Ok newestN, s).

(** One turn of the [default] branch of [removeExpired], at clock
    reading [now] (the sleep that follows is in the sweeper below). *)
Definition sweep (now : Time) (s : inMemStore) : inMemStore :=
  let t := now in
  let s := Lock s in
  setMap s
    (foldl (fun (m : gmap string Nonce) '(k, v) =>
              if Before (ExpiresAt v) t then delete k m else m)
           (nonceMap s) (order (nonceMap s))).

End Service.

End inmem.

(* ===================================================================== *)
(** * service.sqlx.go *)
(* ===================================================================== *)

Module sqlx.

(** The database behind [*sqlx.DB]: the rows of table [nonce] in the
    order a scan yields them, the number of calls made to the database so
    far, and, for each call, whether it fails. The table of the test
    schema declares no key, so a list of rows it is. *)
Record DB : Type := mkDB {
  rows : list Nonce;
  calls : nat;
  fault : nat -> bool
}.

Definition tick (d : DB) : DB := mkDB (rows d) (S (calls d)) (fault d).
Definition setRows (d : DB) (r : list Nonce) : DB := mkDB r (calls d) (fault d).

(** [*sqlx.Tx]: the rows as the transaction sees them, and whether it has
    been committed or rolled back. *)
Record Tx : Type := mkTx {
  pending : list Nonce;
  finished : bool
}.

(** [db.Get(&n, query, args...)]: the first row of the result. *)
Definition db_Get (cond : Nonce -> bool) (d : DB) : result Nonce * DB :=
  if fault d (calls d) then (Err ErrDB, tick d)
  else
    match List.find cond (rows d) with
    | Some n => (Ok n, tick d)
    | None => (Err ErrNoRows, tick d)
    end.

Definition Beginx (d : DB) : result Tx * DB :=
  if fault d (calls d) then (Err ErrDB, tick d)
  else (Ok (mkTx (rows d) false), tick d).

(** [tx.Exec] and [tx.NamedExec] of a statement, given by its effect on
    the rows. *)
Definition Exec (stmt : list Nonce -> list Nonce) (tx : Tx) (d : DB)
  : option error * Tx * DB :=
  if finished tx then (Some ErrTxDone, tx, d)
  else if fault d (calls d) then (Some ErrDB, tx, tick d)
  else (None, mkTx (stmt (pending tx)) false, tick d).

Definition Rollback (tx : Tx) (d : DB) : Tx * DB :=
  if finished tx then (tx, d) else (mkTx (pending tx) true, tick d).

Definition Commit (tx : Tx) (d : DB) : option error * Tx * DB :=
  if finished tx then (Some ErrTxDone, tx, d)
  else if fault d (calls d) then (Some ErrDB, mkTx (pending tx) true, tick d)
  else (None, mkTx (pending tx) true, setRows (tick d) (pending tx)).

(** ** The statements *)

(** INSERT INTO nonce (...) VALUES (...) *)
Definition sqlInsert (n : Nonce) (rs : list Nonce) : list Nonce := rs ++ [n].

(** UPDATE nonce SET is_used=:is_used, is_valid=:is_valid WHERE id=:id *)
Definition sqlUpdate (n : Nonce) (rs : list Nonce) : list Nonce :=
  map (fun r => if bool_decide (ID r = ID n)
                then set_IsValid (set_IsUsed r (IsUsed n)) (IsValid n)
                else r) rs.

(** UPDATE nonce SET is_valid = 0
    WHERE is_valid = 1 AND user_id = :user_id AND action = :action
      AND id != :id *)
Definition superseded (n r : Nonce) : bool :=
  bool_decide (IsValid r = true ∧ UserID r = UserID n
               ∧ Action r = Action n ∧ ID r ≠ ID n).

Definition sqlInvalidate (n : Nonce) (rs : list Nonce) : list Nonce :=
  map (fun r => if superseded n r then set_IsValid r false else r) rs.

(** UPDATE nonce SET is_used = 1 WHERE token=$1 *)
Definition sqlMarkUsed (token : string) (rs : list Nonce) : list Nonce :=
  map (fun r => if bool_decide (Token r = token) then set_IsUsed r true else r) rs.

(** DELETE FROM nonce WHERE expires_at < $1 *)
Definition sqlDelete (t : Time) (rs : list Nonce) : list Nonce :=
  List.filter (fun r => negb (Before (ExpiresAt r) t)) rs.

(** SELECT * FROM nonce WHERE token=$1 *)
Definition byToken (token : string) (r : Nonce) : bool :=
  bool_decide (Token r = token).

(** SELECT * FROM nonce WHERE action=$1 AND user_id=$2 AND is_valid=1
    LIMIT 1 *)
Definition validFor (action : string) (uid : UUID) (r : Nonce) : bool :=
  bool_decide (Action r = action ∧ UserID r = uid ∧ IsValid r = true).

(** ** The service *)

(** [saveNonce(n *Nonce)]: the nonce as the call leaves it, or the
    error. *)
Definition saveNonce (newid : UUID) (n : Nonce) (d : DB) : result Nonce * DB :=
  let '(n, sqlExec) :=
    if bool_decide (ID n = uuid.Nil)
    then (set_ID n newid, sqlInsert (set_ID n newid))
    else (n, sqlUpdate n) in
  match Beginx d with
  | (Err err, d) => (Err err, d)
  | (Ok tx, d) =>
      match Exec sqlExec tx d with
      | (Some err, tx, d) => let '(_, d) := Rollback tx d in (Err err, d)
      | (None, tx, d) =>
          match Commit tx d with
          | (Some err, _, d) => (Err err, d)
          | (None, _, d) => (Ok n, d)
          end
      end
  end.

Definition New (rnd : result (list Z)) (now : Time) (newid : UUID)
    (action : string) (uid : UUID) (expiresIn : Duration) (d : DB)
  : result Nonce * DB :=
  match newNonce rnd now action uid expiresIn with
  | Err err => (Err err, d)
  | Ok n =>
      match saveNonce newid n d with
      | (Err err, d) => (Err err, d)
      | (Ok n, d) =>
          match Beginx d with
          | (Err err, d) => (Err err, d)
          | (Ok tx, d) =>
              match Exec (sqlInvalidate n) tx d with
              | (Some err, tx, d) => let '(_, d) := Rollback tx d in (Err err, d)
              | (None, tx, d) =>
                  match Commit tx d with
                  | (Some err, _, d) => (Err err, d)
                  | (None, _, d) => (Ok n, d)
                  end
              end
          end
      end
  end.

Definition Check (now : Time) (token action : string) (uid : UUID) (d : DB)
  : option error * DB :=
  match checkToken token with
  | Some err => (Some err, d)
  | None =>
      match db_Get (byToken token) d with
      | (Err ErrNoRows, d) => (Some ErrTokenNotFound, d)
      | (Err err, d) => (Some err, d)
      | (Ok n, d) => (checkNonce now n action uid, d)
      end
  end.

Definition Consume (token : string) (d : DB) : result Nonce * DB :=
  match checkToken token with
  | Some err => (Err err, d)
  | None =>
      match db_Get (byToken token) d with
      | (Err ErrNoRows, d) => (Err ErrTokenNotFound, d)
      | (Err err, d) => (Err err, d)
      | (Ok n, d) =>
          if bool_decide (IsUsed n = true) then (Err ErrTokenUsed, d)
          else
            match Beginx d with
            | (Err err, d) => (Err err, d)
            | (Ok tx, d) =>
                match Exec (sqlMarkUsed token) tx d with
                | (Some err, tx, d) => let '(_, d) := Rollback tx d in (Err err, d)
                | (None, tx, d) =>
                    match Commit tx d with
                    | (Some err, _, d) => (Err err, d)
                    | (None, _, d) => (Ok (set_IsUsed n true), d)
                    end
                end
            end
      end
  end.

Definition CheckThenConsume (now : Time) (token action : string) (uid : UUID)
    (d : DB) : result Nonce * DB :=
  match Check now token action uid d with
  | (Some err, d) => (Err err, d)
  | (None, d) =>
      match Consume token d with
      | (Err err, d) => (Err err, d)
      | (Ok n, d) => (Ok n, d)
      end
  end.

Definition Get (action : string) (uid : UUID) (d : DB) : result Nonce * DB :=
  match db_Get (validFor action uid) d with
  | (Err ErrNoRows, d) => (Err ErrTokenNotFound, d)
  | (Err err, d) => (Err err, d)
  | (Ok n, d) => (Ok n, d)
  end.

(** One turn of the [default] branch of [removeExpired] at clock reading
    [now]. Every error is logged and the code goes on: after a failed
    [Beginx] the transaction is nil and [tx.Exec] dereferences it, which
    is [None] here; after a failed [Exec] the transaction is rolled back
    and the [Commit] that follows reports [ErrTxDone]. *)
Definition sweep (now : Time) (d : DB) : option DB :=
  let t := now in
  match Beginx d with
  | (Err _, d) => None
  | (Ok tx, d) =>
      let '(err, tx, d) := Exec (sqlDelete t) tx d in
      let '(tx, d) :=
        match err with
        | Some _ => Rollback tx d
        | None => (tx, d)
        end in
      let '(_, _, d) := Commit tx d in
      Some d
  end.

End sqlx.

(* ===================================================================== *)
(** * The sweeper and Shutdown *)
(* ===================================================================== *)

(** [removeExpired] runs in a goroutine of its own:
<<
    for { select { case <-s.quit: return
                   default: (sweep); time.Sleep(RemoveExpiredInterval) } }
>>
    and [Shutdown] is [s.quit <- struct{}{}] on the channel made by
    [make(chan struct{})], which has no buffer: a send completes only in
    a rendezvous with a receive, and the only receive is the one of the
    [select]. The steps below interleave the goroutine with the callers
    of [Shutdown]. *)

Module sweeper.

Inductive pc : Set :=
| AtSelect     (* about to run the select *)
| Sleeping     (* in time.Sleep *)
| Returned     (* removeExpired has returned *)
| Panicked.    (* the sweep dereferenced a nil transaction *)

Record state (S : Type) : Type := mkState {
  at_pc : pc;
  store : S;
  sending : nat;   (* Shutdown calls blocked in the send *)
  completed : nat  (* Shutdown calls that have returned *)
}.
Arguments mkState {S}.
Arguments at_pc {S}.
Arguments store {S}.
Arguments sending {S}.
Arguments completed {S}.

(** [NewService], [NewInMemoryService]: [go s.removeExpired()]. *)
Definition start {S} (st : S) : state S := mkState AtSelect st 0 0.

Section Steps.
Context {S : Type}.
(** One sweep at a clock reading; [None] when it panics. *)
Variable sweep : Time -> S -> option S.

Inductive step : state S -> state S -> Prop :=
| step_Shutdown s :
    (* a caller reaches the send and blocks *)
    step s (mkState (at_pc s) (store s) (Datatypes.S (sending s)) (completed s))
| step_quit s k :
    (* case <-s.quit: one blocked send meets the receive *)
    at_pc s = AtSelect -> sending s = Datatypes.S k ->
    step s (mkState Returned (store s) k (Datatypes.S (completed s)))
| step_default s now st' :
    (* no sender is ready: the default branch *)
    at_pc s = AtSelect -> sending s = O -> sweep now (store s) = Some st' ->
    step s (mkState Sleeping st' O (completed s))
| step_panic s now :
    at_pc s = AtSelect -> sending s = O -> sweep now (store s) = None ->
    step s (mkState Panicked (store s) O (completed s))
| step_wake s :
    at_pc s = Sleeping ->
    step s (mkState AtSelect (store s) (sending s) (completed s)).

Inductive steps : state S -> state S -> Prop :=
| steps_refl s : steps s s
| steps_step s1 s2 s3 : step s1 s2 -> steps s2 s3 -> steps s1 s3.

End Steps.

End sweeper.

(* ===================================================================== *)
(** * The notions the properties are stated with *)
(* ===================================================================== *)

(** A byte sequence made of white space only, for recognisers [s2] and
    [s3] of the two- and three-byte spaces. *)
Inductive spaces (s2 : Z -> Z -> bool) (s3 : Z -> Z -> Z -> bool)
  : list Z -> Prop :=
| spaces_nil : spaces s2 s3 []
| spaces_1 b r :
    asciiSpace b = true -> spaces s2 s3 r -> spaces s2 s3 (b :: r)
| spaces_2 b0 b1 r :
    s2 b0 b1 = true -> spaces s2 s3 r -> spaces s2 s3 (b0 :: b1 :: r)
| spaces_3 b0 b1 b2 r :
    s3 b0 b1 b2 = true -> spaces s2 s3 r -> spaces s2 s3 (b0 :: b1 :: b2 :: r).

(** A token that is empty or all white space. *)
Definition blank (token : string) : Prop :=
  spaces space2 space3 (bytes_of_string token).

(** The two shape errors of a presented token: nothing supplied, or
    something that is not 88 characters long. *)
Definition shape_error (token : string) (e : error) : Prop :=
  (blank token /\ e = ErrNoToken)
  \/ (~ blank token /\ len token <> 88 /\ e = ErrInvalidToken).

(** The outcome [r] of checking nonce [n] against [action] and [uid] at
    clock reading [now], with the tests in their order: validity and
    binding first, then use, then expiry. *)
Definition checked_in_order (now : Time) (n : Nonce) (action : string)
    (uid : UUID) (r : option error) : Prop :=
  (IsValid n = false \/ Action n <> action \/ UserID n <> uid ->
   r = Some ErrInvalidToken)
  /\ (IsValid n = true -> Action n = action -> UserID n = uid ->
      (IsUsed n = true -> r = Some ErrTokenUsed)
      /\ (IsUsed n = false ->
          (ExpiresAt n <= now -> r = Some ErrTokenExpired)
          /\ (now < ExpiresAt n -> r = None))).

(** A database all of whose calls succeed. *)
Definition healthy (d : sqlx.DB) : Prop := forall i, sqlx.fault d i = false.

(** A token and its nonce for the examples: the one [newNonce] makes for
    action "reset-password" and user 1 one second after the epoch, with
    a salt of sixteen zero bytes, stored under identifier 9. *)
Definition testToken : string :=
  "YnEjOMgS5VRVkPMJGVC38TRdGXYPy2G_06Tyee0Tj8QXbGtym5-Pxr67Xg_M5LzG1fFvIysCKmLhsvHCXUA4JQ==".

Definition testNonce : Nonce :=
  {| ID := 9; UserID := 1; Token := testToken;
     Action := "reset-password"; Salt := "AAAAAAAAAAAAAAAAAAAAAA==";
     IsUsed := false; IsValid := true; CreatedAt := 1;
     ExpiresAt := 61 * Second |}.

(** "CreatedAt + expiresIn truncated to whole seconds", read on the
    fields of the nonce. *)
Definition claimed_ExpiresAt (n : Nonce) (expiresIn : Duration) : Time :=
  Truncate (Add (time_Unix (CreatedAt n)) expiresIn) Second.

(** A [range] over a map visits every entry once, in some order. *)
Definition visits_all (order : gmap string Nonce -> list (string * Nonce)) : Prop :=
  forall m, order m ≡ₚ map_to_list m.

(** The identifier [newid] is the one of no stored record. *)
Definition fresh_in_map (newid : UUID) (m : gmap string Nonce) : Prop :=
  forall k v, m !! k = Some v -> ID v <> newid.

Definition fresh_in_rows (newid : UUID) (rs : list Nonce) : Prop :=
  forall r, r ∈ rs -> ID r <> newid.

(** At most one valid record for each pair of user and action. *)
Definition at_most_one_valid (m : gmap string Nonce) : Prop :=
  forall k1 k2 v1 v2,
    m !! k1 = Some v1 -> m !! k2 = Some v2 ->
    IsValid v1 = true -> IsValid v2 = true ->
    UserID v1 = UserID v2 -> Action v1 = Action v2 -> k1 = k2.

Definition at_most_one_valid_row (rs : list Nonce) : Prop :=
  forall (i j : nat) v1 v2,
    rs !! i = Some v1 -> rs !! j = Some v2 ->
    IsValid v1 = true -> IsValid v2 = true ->
    UserID v1 = UserID v2 -> Action v1 = Action v2 -> i = j.

(** What New does to a record already stored: a record of the pair is
    left invalid, any other record is left as it is. *)
Definition supersede (action : string) (uid : UUID) (v : Nonce) : Nonce :=
  if bool_decide (UserID v = uid /\ Action v = action)
  then set_IsValid v false else v.

(** [n'] is [n] marked used: IsUsed is set and every other field is the
    one of [n] (the identifier too, unless [n] had none). *)
Definition consumed (n n' : Nonce) : Prop :=
  IsUsed n' = true
  /\ UserID n' = UserID n /\ Token n' = Token n /\ Action n' = Action n
  /\ Salt n' = Salt n /\ IsValid n' = IsValid n
  /\ CreatedAt n' = CreatedAt n /\ ExpiresAt n' = ExpiresAt n
  /\ (ID n <> uuid.Nil -> ID n' = ID n).

(** Get as it is claimed, on the records of the pair: none gives
    token-not-found, a single one is returned, and of several the valid
    one with the greatest CreatedAt is returned, unless the record with
    the greatest CreatedAt of all is not valid, which gives
    token-not-found. *)
Definition claimed_Get (records : list Nonce) (r : result Nonce) : Prop :=
  match records with
  | [] => r = Err ErrTokenNotFound
  | [n] => r = Ok n
  | _ =>
      (forall n, r = Ok n ->
         n ∈ records /\ IsValid n = true
         /\ forall v, v ∈ records -> IsValid v = true -> CreatedAt v <= CreatedAt n)
      /\ ((exists n, n ∈ records /\ IsValid n = false
                     /\ forall v, v ∈ records -> CreatedAt v <= CreatedAt n) ->
          r = Err ErrTokenNotFound)
  end.

(** Two records of one pair: the older one valid, the newer one not. *)
Definition olderValid : Nonce :=
  mkNonce 8 1 "token-of-the-older-record" "reset-password" "" false true 5
          (65 * Second).
Definition newerInvalid : Nonce :=
  mkNonce 9 1 "token-of-the-newer-record" "reset-password" "" false false 10
          (70 * Second).
Definition twoRecords : gmap string Nonce :=
  <[Token newerInvalid := newerInvalid]> {[ Token olderValid := olderValid ]}.

(** The sweepers of the two services. *)
Definition inmem_sweeper (order : gmap string Nonce -> list (string * Nonce))
  : Time -> inmem.inMemStore -> option inmem.inMemStore :=
  fun now s => Some (inmem.sweep order now s).

Definition sqlx_sweeper : Time -> sqlx.DB -> option sqlx.DB := sqlx.sweep.

(** A call of Shutdown made in state [s]: the caller is at the send. *)
Definition Shutdown {S : Type} (s : sweeper.state S) : sweeper.state S :=
  sweeper.mkState (sweeper.at_pc s) (sweeper.store s)
                  (Datatypes.S (sweeper.sending s)) (sweeper.completed s).

(** From [s] on, some call of Shutdown that is blocked in [s] can
    return. *)
Definition can_return {S : Type} (sweep : Time -> S -> option S)
    (s : sweeper.state S) : Prop :=
  exists s', sweeper.steps sweep s s'
             /\ (sweeper.completed s < sweeper.completed s')%nat.

(** The service after a first Shutdown has met the sweeper. *)
Definition stopped : sweeper.state inmem.inMemStore :=
  sweeper.mkState sweeper.Returned inmem.empty 0 1.

(** The service after a New for action "reset-password" and user 1, one
    second after the epoch. *)
Definition afterNew : inmem.inMemStore :=
  (inmem.New map_to_list (Ok (repeat 0 16)) (1 * Second + 5) 9
     "reset-password" 1 Minute inmem.empty).2.

(* ===================================================================== *)
(** * More notions: the life of a store *)
(* ===================================================================== *)

(** Every record is stored under its own token. *)
Definition keyed_by_token (m : gmap string Nonce) : Prop :=
  forall k v, m !! k = Some v -> Token v = k.

(** The calls a client or the sweeper makes on the in-memory service. *)
Inductive call : Type :=
| CallNew (rnd : result (list Z)) (now : Time) (newid : UUID)
          (action : string) (uid : UUID) (expiresIn : Duration)
| CallCheck (now : Time) (token action : string) (uid : UUID)
| CallConsume (newid : UUID) (token : string)
| CallCheckThenConsume (now : Time) (newid : UUID) (token action : string)
                       (uid : UUID)
| CallGet (action : string) (uid : UUID)
| CallSweep (now : Time).

(** The store a call leaves. *)
Definition run (order : gmap string Nonce -> list (string * Nonce))
    (c : call) (s : inmem.inMemStore) : inmem.inMemStore :=
  match c with
  | CallNew rnd now newid action uid expiresIn =>
      (inmem.New order rnd now newid action uid expiresIn s).2
  | CallCheck now token action uid => (inmem.Check now token action uid s).2
  | CallConsume newid token => (inmem.Consume newid token s).2
  | CallCheckThenConsume now newid token action uid =>
      (inmem.CheckThenConsume now newid token action uid s).2
  | CallGet action uid => (inmem.Get order action uid s).2
  | CallSweep now => inmem.sweep order now s
  end.

(** [uuid.NewV4] hands New an identifier that no stored record has. *)
Definition admissible (c : call) (s : inmem.inMemStore) : Prop :=
  match c with
  | CallNew _ _ newid _ _ _ => fresh_in_map newid (inmem.nonceMap s)
  | _ => True
  end.

(** The stores of a service made by [NewInMemoryService], after any
    number of calls. *)
Inductive reachable (order : gmap string Nonce -> list (string * Nonce))
  : inmem.inMemStore -> Prop :=
| reachable_empty : reachable order inmem.empty
| reachable_call s c :
    reachable order s -> admissible c s -> reachable order (run order c s).

(** A character of either alphabet is an ASCII character that is no
    white space. *)
Definition plain_char (c : ascii) : bool :=
  negb (asciiSpace (byte_of_char c)) && (byte_of_char c <? 128).

(** The two properties every store of the in-memory service keeps. *)
Definition store_ok (m : gmap string Nonce) : Prop :=
  keyed_by_token m /\ at_most_one_valid m.

(* ===================================================================== *)
(** * Properties *)
(* ===================================================================== *)

(** ** The digest and the encodings on known values *)

Example sha512_abc :
  hex_encode (sha512.Sum (bytes_of_string "abc")) =
  "ddaf35a193617abacc417349ae20413112e6fa4e89a97ea20a9eeee64b55d39a2192992a274fc1a836ba3c23a3feebbd454d4423643ce80e2a9ac94fa54ca49f"%string.
Proof. vm_compute. reflexivity. Qed.

Example base64_zero_salt :
  base64.StdEncoding (repeat 0 16) = "AAAAAAAAAAAAAAAAAAAAAA=="%string.
Proof. vm_compute. reflexivity. Qed.

Example newNonce_token :
  newNonce (Ok (repeat 0 16)) (1 * Second + 5) "reset-password" 1 Minute =
  Ok {| ID := 0; UserID := 1;
        Token := "YnEjOMgS5VRVkPMJGVC38TRdGXYPy2G_06Tyee0Tj8QXbGtym5-Pxr67Xg_M5LzG1fFvIysCKmLhsvHCXUA4JQ==";
        Action := "reset-password"; Salt := "AAAAAAAAAAAAAAAAAAAAAA==";
        IsUsed := false; IsValid := true; CreatedAt := 1;
        ExpiresAt := 61 * Second |}.
Proof. vm_compute. reflexivity. Qed.

(** ** Text *)

Lemma string_of_list_ascii_length (l : list ascii) :
  String.length (string_of_list_ascii l) = length l.
Proof. induction l as [|c l IH]; simpl; congruence. Qed.

Lemma len_string_of_bytes (bs : list Z) :
  len (string_of_bytes bs) = Z.of_nat (length bs).
Proof.
  unfold len, string_of_bytes.
  by rewrite string_of_list_ascii_length, length_map.
Qed.

Lemma EncodeToString_length (alphabet : string) (src : list Z) :
  Z.of_nat (String.length (base64.EncodeToString alphabet src))
  = 4 * ((Z.of_nat (length src) + 2) / 3).
Proof.
  remember (length src) as n eqn:Hn.
  revert src Hn. induction n as [n IH] using lt_wf_ind. intros src Hn.
  destruct src as [|a [|b [|c rest]]]; simpl in Hn; subst n; try reflexivity.
  cbn [base64.EncodeToString String.length].
  rewrite !Nat2Z.inj_succ.
  rewrite (IH (length rest) ltac:(simpl; lia) rest eq_refl).
  replace (Z.succ (Z.succ (Z.succ (Z.of_nat (length rest)))) + 2)
    with (Z.of_nat (length rest) + 2 + 1 * 3) by lia.
  rewrite Z.div_add by lia. lia.
Qed.

Lemma sha512_Sum_length (msg : list Z) : length (sha512.Sum msg) = 64%nat.
Proof. reflexivity. Qed.

(** ** White space *)

Section Trim.
Variable s2 : Z -> Z -> bool.
Variable s3 : Z -> Z -> Z -> bool.

Lemma trim_nil_spaces (l : list Z) : trim s2 s3 l = [] -> spaces s2 s3 l.
Proof.
  remember (length l) as n eqn:Hn. revert l Hn.
  induction n as [n IH] using lt_wf_ind. intros l Hn Ht.
  destruct l as [|b0 r0]; [constructor|].
  simpl in Ht. destruct (asciiSpace b0) eqn:Ha.
  { apply spaces_1; [done|]. eapply IH; [|reflexivity|done]. subst; simpl; lia. }
  destruct r0 as [|b1 r1]; [done|].
  destruct (s2 b0 b1) eqn:H2.
  { apply spaces_2; [done|]. eapply IH; [|reflexivity|done]. subst; simpl; lia. }
  destruct r1 as [|b2 r2]; [done|].
  destruct (s3 b0 b1 b2) eqn:H3; [|done].
  apply spaces_3; [done|]. eapply IH; [|reflexivity|done]. subst; simpl; lia.
Qed.

Lemma trim_trim (l : list Z) : trim s2 s3 (trim s2 s3 l) = trim s2 s3 l.
Proof.
  remember (length l) as n eqn:Hn. revert l Hn.
  induction n as [n IH] using lt_wf_ind. intros l Hn.
  destruct l as [|b0 r0]; [done|].
  assert (Hrec : forall r, (length r < n)%nat ->
                   trim s2 s3 (trim s2 s3 r) = trim s2 s3 r)
    by (intros r Hr; by eapply IH).
  destruct (asciiSpace b0) eqn:Ha.
  { simpl. rewrite Ha. apply Hrec. subst; simpl; lia. }
  destruct r0 as [|b1 r1].
  { simpl. rewrite Ha. simpl. by rewrite Ha. }
  destruct (s2 b0 b1) eqn:H2.
  { simpl. rewrite Ha, H2. apply Hrec. subst; simpl; lia. }
  destruct r1 as [|b2 r2].
  { simpl. rewrite Ha, H2. simpl. by rewrite Ha, H2. }
  destruct (s3 b0 b1 b2) eqn:H3.
  { simpl. rewrite Ha, H2, H3. apply Hrec. subst; simpl; lia. }
  simpl. rewrite Ha, H2, H3. simpl. by rewrite Ha, H2, H3.
Qed.

Hypothesis s2_not_ascii : forall b0 b1, s2 b0 b1 = true -> asciiSpace b0 = false.
Hypothesis s3_not_shorter :
  forall b0 b1 b2, s3 b0 b1 b2 = true -> asciiSpace b0 = false /\ s2 b0 b1 = false.

Lemma spaces_trim_nil (l : list Z) : spaces s2 s3 l -> trim s2 s3 l = [].
Proof.
  induction 1 as [|b r Ha _ IH|b0 b1 r H2 _ IH|b0 b1 b2 r H3 _ IH]; simpl.
  - done.
  - by rewrite Ha.
  - by rewrite (s2_not_ascii _ _ H2), H2.
  - destruct (s3_not_shorter _ _ _ H3) as [-> ->]. by rewrite H3.
Qed.

Lemma spaces_app (l1 l2 : list Z) :
  spaces s2 s3 l1 -> spaces s2 s3 l2 -> spaces s2 s3 (l1 ++ l2).
Proof.
  intros H1 H2.
  induction H1; simpl; [done|apply spaces_1|apply spaces_2|apply spaces_3]; done.
Qed.

End Trim.

Lemma spaces_rev (s2 : Z -> Z -> bool) (s3 : Z -> Z -> Z -> bool) (l : list Z) :
  spaces s2 s3 l ->
  spaces (fun b1 b0 => s2 b0 b1) (fun b2 b1 b0 => s3 b0 b1 b2) (rev l).
Proof.
  induction 1 as [|b r Ha _ IH|b0 b1 r H2 _ IH|b0 b1 b2 r H3 _ IH]; simpl.
  - constructor.
  - apply spaces_app; [done|]. apply spaces_1; [done|constructor].
  - rewrite <- app_assoc. apply spaces_app; [done|].
    apply spaces_2; [done|constructor].
  - rewrite <- !app_assoc. apply spaces_app; [done|].
    apply spaces_3; [done|constructor].
Qed.

Lemma space2_not_ascii b0 b1 : space2 b0 b1 = true -> asciiSpace b0 = false.
Proof.
  unfold space2. intros H. apply andb_true_iff in H as [H _].
  apply Z.eqb_eq in H. by subst.
Qed.

Lemma space3_not_shorter b0 b1 b2 :
  space3 b0 b1 b2 = true -> asciiSpace b0 = false /\ space2 b0 b1 = false.
Proof.
  unfold space3, space2. intros H.
  repeat (apply orb_true_iff in H as [H|H]);
    repeat (apply andb_true_iff in H as [H ?]);
    apply Z.eqb_eq in H; by subst.
Qed.

Lemma space2_rev_not_ascii b1 b0 : space2 b0 b1 = true -> asciiSpace b1 = false.
Proof.
  unfold space2. intros H. apply andb_true_iff in H as [_ H].
  apply orb_true_iff in H as [H|H]; apply Z.eqb_eq in H; by subst.
Qed.

Lemma space3_rev_not_shorter b2 b1 b0 :
  space3 b0 b1 b2 = true -> asciiSpace b2 = false /\ space2 b1 b2 = false.
Proof.
  unfold space3, space2, asciiSpace. intros H.
  repeat (apply orb_true_iff in H as [H|H]);
    repeat (apply andb_true_iff in H as [H ?]);
    repeat match goal with
           | E : (_ =? _) = true |- _ => apply Z.eqb_eq in E; subst
           | E : (_ <=? _) = true |- _ => apply Z.leb_le in E
           end;
    (split; [|done]);
    repeat (apply orb_false_iff; split); try done; apply Z.eqb_neq; lia.
Qed.

(** Trimming leaves nothing exactly for the blank sequences. *)
Lemma TrimLeft_nil (bs : list Z) :
  TrimLeft bs = [] <-> spaces space2 space3 bs.
Proof.
  split; [apply trim_nil_spaces|].
  apply spaces_trim_nil; [apply space2_not_ascii|apply space3_not_shorter].
Qed.

Lemma TrimRight_nil (bs : list Z) :
  TrimRight bs = [] <-> spaces space2 space3 bs.
Proof.
  unfold TrimRight. split.
  - intros H. apply (f_equal (@rev Z)) in H. rewrite rev_involutive in H.
    simpl in H. apply trim_nil_spaces in H. apply spaces_rev in H.
    by rewrite rev_involutive in H.
  - intros H. apply spaces_rev in H.
    rewrite (spaces_trim_nil _ _ space2_rev_not_ascii space3_rev_not_shorter _ H).
    done.
Qed.

Lemma TrimSpace_empty (token : string) :
  len (TrimSpace token) = 0 <-> blank token.
Proof.
  unfold TrimSpace, blank. rewrite len_string_of_bytes.
  set (bs := bytes_of_string token).
  rewrite <- TrimLeft_nil.
  assert (Z.of_nat (length (TrimRight (TrimLeft bs))) = 0
          <-> TrimRight (TrimLeft bs) = []) as ->.
  { destruct (TrimRight (TrimLeft bs)); simpl; split; (done || lia). }
  rewrite TrimRight_nil, <- TrimLeft_nil. unfold TrimLeft.
  by rewrite trim_trim.
Qed.

(** ** checkToken *)

Lemma checkToken_blank (token : string) :
  blank token -> checkToken token = Some ErrNoToken.
Proof.
  intros H. apply TrimSpace_empty in H. unfold checkToken.
  by rewrite (proj2 (Z.eqb_eq _ _) H).
Qed.

Lemma checkToken_length (token : string) :
  ~ blank token -> len token <> 88 -> checkToken token = Some ErrInvalidToken.
Proof.
  intros Hb Hl. unfold checkToken.
  destruct (len (TrimSpace token) =? 0) eqn:E.
  - apply Z.eqb_eq, TrimSpace_empty in E. done.
  - by rewrite (proj2 (Z.eqb_neq _ _) Hl).
Qed.

Lemma checkToken_None (token : string) :
  checkToken token = None <-> ~ blank token /\ len token = 88.
Proof.
  unfold checkToken. rewrite <- TrimSpace_empty.
  destruct (len (TrimSpace token) =? 0) eqn:E.
  - apply Z.eqb_eq in E. split; [done|]. intros [H _]. done.
  - apply Z.eqb_neq in E. destruct (len token =? 88) eqn:E'; simpl.
    + apply Z.eqb_eq in E'. done.
    + apply Z.eqb_neq in E'. split; [done|]. intros [_ H]. done.
Qed.

Lemma shape_error_checkToken (token : string) (e : error) :
  shape_error token e -> checkToken token = Some e.
Proof.
  intros [[Hb ->]|(Hb & Hl & ->)];
    [by apply checkToken_blank|by apply checkToken_length].
Qed.

(** C6. A token that is empty or all white space is answered with the
    no-token error, and one that is not blank and not 88 characters long
    with the invalid-token error, by Check, Consume and CheckThenConsume
    of both services; the store comes back as it was, the count of lock
    acquisitions and of database calls included, so the store was not
    accessed. *)
Theorem shape_errors_before_storage (token : string) (e : error) :
  shape_error token e ->
  (forall now newid action uid s,
      inmem.Check now token action uid s = (Some e, s)
      /\ inmem.Consume newid token s = (Err e, s)
      /\ inmem.CheckThenConsume now newid token action uid s = (Err e, s))
  /\ (forall now action uid d,
      sqlx.Check now token action uid d = (Some e, d)
      /\ sqlx.Consume token d = (Err e, d)
      /\ sqlx.CheckThenConsume now token action uid d = (Err e, d)).
Proof.
  intros H. apply shape_error_checkToken in H.
  split; intros.
  - unfold inmem.CheckThenConsume, inmem.Check, inmem.Consume. by rewrite H.
  - unfold sqlx.CheckThenConsume, sqlx.Check, sqlx.Consume. by rewrite H.
Qed.

Lemma shape_errors_before_storage_witness :
  shape_error "" ErrNoToken
  /\ shape_error "InvalidToken" ErrInvalidToken
  /\ inmem.Check 0 "" "test-action" 7 inmem.empty = (Some ErrNoToken, inmem.empty)
  /\ sqlx.Consume "InvalidToken" (sqlx.mkDB [] 0 (fun _ => true))
     = (Err ErrInvalidToken, sqlx.mkDB [] 0 (fun _ => true)).
Proof.
  assert (H1 : shape_error "" ErrNoToken) by (left; split; [constructor|done]).
  assert (H2 : shape_error "InvalidToken" ErrInvalidToken).
  { right. split; [|done]. unfold blank. intros H. apply TrimLeft_nil in H.
    vm_compute in H. discriminate H. }
  split; [exact H1|]. split; [exact H2|]. split.
  - exact (proj1 (proj1 (shape_errors_before_storage "" ErrNoToken H1)
                         0 0 "test-action" 7 inmem.empty)).
  - exact (proj1 (proj2 (proj2 (shape_errors_before_storage
                                  "InvalidToken" ErrInvalidToken H2)
                                 0 "test-action" 7
                                 (sqlx.mkDB [] 0 (fun _ => true))))).
Defined.

(** C9. Check leaves the contents of the store as they were, whatever it
    answers: the map of the in-memory service and the rows of the
    database are the same after the call as before. *)
Theorem Check_mutates_nothing (now : Time) (token action : string) (uid : UUID) :
  (forall s, inmem.nonceMap (inmem.Check now token action uid s).2 = inmem.nonceMap s)
  /\ (forall d, sqlx.rows (sqlx.Check now token action uid d).2 = sqlx.rows d).
Proof.
  split.
  - intros s. unfold inmem.Check, inmem.getNonce.
    destruct (checkToken token); [done|]. simpl.
    by destruct (inmem.nonceMap s !! token).
  - intros d. unfold sqlx.Check, sqlx.db_Get.
    destruct (checkToken token); [done|].
    destruct (sqlx.fault d (sqlx.calls d)); [done|].
    by destruct (find (sqlx.byToken token) (sqlx.rows d)).
Qed.

(** ** checkNonce *)

Lemma checkNonce_in_order (now : Time) (n : Nonce) (action : string) (uid : UUID) :
  checked_in_order now n action uid (checkNonce now n action uid).
Proof.
  unfold checked_in_order, checkNonce, After. split.
  - intros H. by rewrite bool_decide_eq_true_2.
  - intros Hv Ha Hu.
    rewrite bool_decide_eq_false_2
      by (intros [?|[?|?]]; congruence).
    split.
    + intros Hused. by rewrite bool_decide_eq_true_2.
    + intros Hused. rewrite bool_decide_eq_false_2 by congruence. split.
      * intros Hle. rewrite bool_decide_eq_true_2; [done|].
        apply Z.ltb_ge. lia.
      * intros Hlt. rewrite bool_decide_eq_false_2; [done|].
        rewrite (proj2 (Z.ltb_lt _ _) Hlt). done.
Qed.

(** C3. For the nonce that Check finds under a well-shaped token, the
    answer follows the tests in their order: the invalid-token error
    when the nonce is not valid or is bound to another action or user,
    else the used-token error when it is used, else the expired error
    when ExpiresAt is not after the clock, else success. *)
Theorem Check_in_order (now : Time) (token action : string) (uid : UUID) (n : Nonce) :
  checkToken token = None ->
  (forall s, inmem.nonceMap s !! token = Some n ->
     checked_in_order now n action uid (inmem.Check now token action uid s).1)
  /\ (forall d, sqlx.fault d (sqlx.calls d) = false ->
     List.find (sqlx.byToken token) (sqlx.rows d) = Some n ->
     checked_in_order now n action uid (sqlx.Check now token action uid d).1).
Proof.
  intros Ht. split.
  - intros s Hs. unfold inmem.Check, inmem.getNonce. rewrite Ht. simpl.
    rewrite Hs. simpl. apply checkNonce_in_order.
  - intros d Hf Hd. unfold sqlx.Check, sqlx.db_Get. rewrite Ht, Hf, Hd.
    simpl. apply checkNonce_in_order.
Qed.

Lemma Check_in_order_witness :
  checkToken testToken = None
  /\ checked_in_order (2 * Second) testNonce "reset-password" 1
       (inmem.Check (2 * Second) testToken "reset-password" 1
          (inmem.mkStore {[ testToken := testNonce ]} 0)).1.
Proof.
  assert (H : checkToken testToken = None) by (vm_compute; reflexivity).
  split; [exact H|].
  apply (proj1 (Check_in_order (2 * Second) testToken "reset-password" 1
                  testNonce H)).
  apply lookup_singleton_eq.
Defined.

(** ** newNonce *)

Lemma newNonce_Token_len (rawSalt : list Z) (now : Time) (action : string)
    (uid : UUID) (expiresIn : Duration) (n : Nonce) :
  newNonce (Ok rawSalt) now action uid expiresIn = Ok n -> len (Token n) = 88.
Proof.
  intros [= <-]. cbn [Token]. unfold len, base64.URLEncoding.
  rewrite EncodeToString_length, sha512_Sum_length. reflexivity.
Qed.

Lemma Truncate_Second (t : Time) : Truncate t Second = t - t mod Second.
Proof. reflexivity. Qed.

Lemma Truncate_whole (now : Time) (d : Duration) :
  d mod Second = 0 ->
  Truncate (Add now d) Second = Add (time_Unix (Unix now)) d.
Proof.
  intros Hd. rewrite Truncate_Second. unfold Add, time_Unix, Unix.
  apply Z.div_exact in Hd; [|done].
  rewrite Hd at 2. rewrite (Z.mul_comm Second), Z.mod_add by done.
  pose proof (Z.div_mod now Second ltac:(done)). lia.
Qed.

Lemma Truncate_fraction (now : Time) (d : Duration) :
  let e := Truncate (Add (time_Unix (Unix now)) d) Second in
  Truncate (Add now d) Second = e \/ Truncate (Add now d) Second = e + Second.
Proof.
  intros e. subst e. rewrite !Truncate_Second. unfold Add, time_Unix, Unix, Second.
  Z.div_mod_to_equations. lia.
Qed.


Lemma healthy_setRows (d : sqlx.DB) (r : list Nonce) :
  healthy d -> healthy (sqlx.setRows d r).
Proof. intros H i. apply H. Qed.

(** A statement run in a transaction of its own on a healthy database. *)
Ltac healthy_calls H :=
  unfold sqlx.Beginx, sqlx.Exec, sqlx.Commit, sqlx.db_Get; simpl;
  repeat (rewrite !H; simpl).

Lemma sqlx_New_healthy (rawSalt : list Z) (now : Time) (newid : UUID)
    (action : string) (uid : UUID) (expiresIn : Duration) (d : sqlx.DB) (n : Nonce) :
  healthy d ->
  newNonce (Ok rawSalt) now action uid expiresIn = Ok n ->
  exists d',
    sqlx.New (Ok rawSalt) now newid action uid expiresIn d
    = (Ok (set_ID n newid), d')
    /\ sqlx.rows d'
       = sqlx.sqlInvalidate (set_ID n newid) (sqlx.rows d ++ [set_ID n newid])
    /\ sqlx.fault d' = sqlx.fault d.
Proof.
  intros H Hn. unfold sqlx.New. rewrite Hn.
  injection Hn as <-. unfold sqlx.saveNonce. simpl.
  healthy_calls H. eexists. split; [reflexivity|]. done.
Qed.

Lemma inmem_New_result (order : gmap string Nonce -> list (string * Nonce))
    (rawSalt : list Z) (now : Time) (newid : UUID)
    (action : string) (uid : UUID) (expiresIn : Duration) (s : inmem.inMemStore)
    (n : Nonce) :
  newNonce (Ok rawSalt) now action uid expiresIn = Ok n ->
  (inmem.New order (Ok rawSalt) now newid action uid expiresIn s).1
  = Ok (set_ID n newid).
Proof.
  intros Hn. unfold inmem.New. rewrite Hn. injection Hn as <-. done.
Qed.

(** C5, as the code has it. When the random source succeeds, New returns
    a nonce whose Token has exactly 88 characters, with IsUsed=false and
    IsValid=true, whose CreatedAt is the whole seconds of the creation
    instant and whose ExpiresAt is that instant plus expiresIn, truncated
    to whole seconds. ExpiresAt equals CreatedAt + expiresIn when
    expiresIn is a whole number of seconds; otherwise it is CreatedAt +
    expiresIn truncated to whole seconds, or one second later. *)
Theorem New_fields (rawSalt : list Z) (now : Time) (action : string)
    (uid : UUID) (expiresIn : Duration) :
  exists n,
    newNonce (Ok rawSalt) now action uid expiresIn = Ok n
    /\ len (Token n) = 88 /\ IsUsed n = false /\ IsValid n = true
    /\ UserID n = uid /\ Action n = action
    /\ CreatedAt n = Unix now
    /\ ExpiresAt n = Truncate (Add now expiresIn) Second
    /\ (expiresIn mod Second = 0 ->
        ExpiresAt n = Add (time_Unix (CreatedAt n)) expiresIn)
    /\ (ExpiresAt n = claimed_ExpiresAt n expiresIn
        \/ ExpiresAt n = claimed_ExpiresAt n expiresIn + Second)
    /\ (forall order newid s,
          (inmem.New order (Ok rawSalt) now newid action uid expiresIn s).1
          = Ok (set_ID n newid))
    /\ (forall newid d, healthy d ->
          (sqlx.New (Ok rawSalt) now newid action uid expiresIn d).1
          = Ok (set_ID n newid)).
Proof.
  eexists. split; [reflexivity|].
  split; [by eapply newNonce_Token_len|].
  do 6 (split; [reflexivity|]). cbn [ExpiresAt CreatedAt].
  split; [apply Truncate_whole|].
  split; [apply Truncate_fraction|].
  split.
  - intros. by apply inmem_New_result.
  - intros newid d H.
    destruct (sqlx_New_healthy rawSalt now newid action uid expiresIn d _ H eq_refl)
      as (d' & -> & _). done.
Qed.

Lemma New_fields_witness :
  exists n,
    newNonce (Ok (repeat 0 16)) (1 * Second + 5) "reset-password" 1 Minute = Ok n
    /\ len (Token n) = 88 /\ IsUsed n = false /\ IsValid n = true
    /\ ExpiresAt n = Add (time_Unix (CreatedAt n)) Minute
    /\ (sqlx.New (Ok (repeat 0 16)) (1 * Second + 5) 9 "reset-password" 1 Minute
          (sqlx.mkDB [] 0 (fun _ => false))).1 = Ok (set_ID n 9).
Proof.
  destruct (New_fields (repeat 0 16) (1 * Second + 5) "reset-password" 1 Minute)
    as (n & Hn & Hl & Hu & Hv & _ & _ & _ & _ & Hw & _ & _ & Hq).
  exists n. split; [exact Hn|]. split; [exact Hl|]. split; [exact Hu|].
  split; [exact Hv|]. split; [apply Hw; reflexivity|].
  apply Hq. intros i. reflexivity.
Defined.

(** C5 as claimed fails: created 0.7 s into second 1700000000 with an
    expiry of half a second, the nonce has CreatedAt 1700000000 and
    ExpiresAt 1700000001 s, while CreatedAt + expiresIn truncated to
    whole seconds is 1700000000 s. *)
Lemma ExpiresAt_counterexample :
  exists n,
    newNonce (Ok (repeat 0 16)) (1700000000 * Second + 700 * Millisecond)
             "reset-password" 1 (500 * Millisecond) = Ok n
    /\ CreatedAt n = 1700000000
    /\ ExpiresAt n = 1700000001 * Second
    /\ claimed_ExpiresAt n (500 * Millisecond) = 1700000000 * Second
    /\ ExpiresAt n <> claimed_ExpiresAt n (500 * Millisecond).
Proof.
  eexists. split; [reflexivity|]. vm_compute. repeat split; discriminate.
Qed.

(** C10. The token is a function of the action, the user, the second of
    the clock and the salt alone: two runs that agree on these give the
    same Token, whatever the fraction of the second and the expiry, and
    the Token is the URL-safe base64 of the SHA-512 digest of
    "action::uid::unixSeconds::salt". *)
Theorem Token_deterministic (rawSalt : list Z) (action : string) (uid : UUID)
    (now1 now2 : Time) (e1 e2 : Duration) (n1 n2 : Nonce) :
  Unix now1 = Unix now2 ->
  newNonce (Ok rawSalt) now1 action uid e1 = Ok n1 ->
  newNonce (Ok rawSalt) now2 action uid e2 = Ok n2 ->
  Token n1 = Token n2
  /\ Salt n1 = base64.StdEncoding rawSalt
  /\ Token n1
     = base64.URLEncoding
         (sha512.Sum
            (bytes_of_string
               (action ++ "::" ++ uuid.String uid ++ "::"
                  ++ itoa (Unix now1) ++ "::" ++ Salt n1)%string)).
Proof.
  intros Hu [= <-] [= <-]. cbn [Token Salt]. unfold rawToken.
  rewrite Hu. done.
Qed.

Lemma Token_deterministic_witness :
  Token (set_ID testNonce 0)
  = Token (mkNonce 0 1 testToken "reset-password" "AAAAAAAAAAAAAAAAAAAAAA=="
             false true 1 (1 * Second)).
Proof.
  apply (Token_deterministic (repeat 0 16) "reset-password" 1
           (1 * Second + 5) (1 * Second + 999999999) Minute 0
           (set_ID testNonce 0)
           (mkNonce 0 1 testToken "reset-password" "AAAAAAAAAAAAAAAAAAAAAA=="
              false true 1 (1 * Second)));
    vm_compute; reflexivity.
Defined.

(** ** Ranging over the map *)

Section Range.
Variable f : gmap string Nonce -> string * Nonce -> gmap string Nonce.
Variable g : Nonce -> option Nonce.
Hypothesis f_other : forall acc k v k', k' <> k -> f acc (k, v) !! k' = acc !! k'.
Hypothesis f_same : forall acc k v, acc !! k = Some v -> f acc (k, v) !! k = g v.

Lemma foldl_range_list (l : list (string * Nonce)) :
  forall acc : gmap string Nonce,
    NoDup l.*1 ->
    (forall k v, (k, v) ∈ l -> acc !! k = Some v) ->
    (forall k v, (k, v) ∈ l -> foldl f acc l !! k = g v)
    /\ (forall k, k ∉ l.*1 -> foldl f acc l !! k = acc !! k).
Proof.
  induction l as [|[k0 v0] l IH]; intros acc Hnd Hacc.
  { split; [intros k v H; by apply elem_of_nil in H|done]. }
  simpl in Hnd. apply NoDup_cons in Hnd as [Hk0 Hnd].
  assert (Hacc' : forall k v, (k, v) ∈ l -> f acc (k0, v0) !! k = Some v).
  { intros k v Hin. rewrite f_other.
    - apply Hacc. by right.
    - intros ->. apply Hk0. apply list_elem_of_fmap. by exists (k0, v). }
  destruct (IH (f acc (k0, v0)) Hnd Hacc') as [IHa IHb].
  simpl. split.
  - intros k v Hin. apply elem_of_cons in Hin as [[= -> ->]|Hin].
    + rewrite IHb by done. apply f_same, Hacc. by left.
    + by apply IHa.
  - intros k Hk. simpl in Hk. apply not_elem_of_cons in Hk as [Hne Hk].
    rewrite IHb by done. by apply f_other.
Qed.

Lemma foldl_range (order : gmap string Nonce -> list (string * Nonce))
    (m : gmap string Nonce) (k : string) :
  visits_all order ->
  foldl f m (order m) !! k = m !! k ≫= g.
Proof.
  intros Hperm. specialize (Hperm m).
  assert (Hnd : NoDup (order m).*1).
  { rewrite Hperm. apply NoDup_fst_map_to_list. }
  assert (Hin : forall k v, (k, v) ∈ order m <-> m !! k = Some v).
  { intros k' v'. rewrite Hperm. apply elem_of_map_to_list. }
  destruct (foldl_range_list (order m) m Hnd (fun k v H => proj1 (Hin k v) H))
    as [Ha Hb].
  destruct (m !! k) as [v|] eqn:E; simpl.
  - apply Ha. by apply Hin.
  - rewrite Hb; [done|]. intros Hk. apply list_elem_of_fmap in Hk as [[k' v'] [-> Hk]].
    apply Hin in Hk. simpl in E. congruence.
Qed.

End Range.

(** ** New *)

Lemma newNonce_Ok (rawSalt : list Z) (now : Time) (action : string)
    (uid : UUID) (expiresIn : Duration) (n : Nonce) :
  newNonce (Ok rawSalt) now action uid expiresIn = Ok n ->
  ID n = uuid.Nil /\ UserID n = uid /\ Action n = action
  /\ IsUsed n = false /\ IsValid n = true.
Proof. intros [= <-]. done. Qed.

Lemma inmem_New_lookup (order : gmap string Nonce -> list (string * Nonce))
    (rawSalt : list Z) (now : Time) (newid : UUID) (action : string)
    (uid : UUID) (expiresIn : Duration) (s : inmem.inMemStore) (n0 : Nonce) :
  visits_all order ->
  newNonce (Ok rawSalt) now action uid expiresIn = Ok n0 ->
  exists s',
    inmem.New order (Ok rawSalt) now newid action uid expiresIn s
    = (Ok (set_ID n0 newid), s')
    /\ forall k,
        inmem.nonceMap s' !! k
        = (fun v => if inmem.superseded (set_ID n0 newid) v
                    then set_IsValid v false else v)
            <$> (<[Token n0 := set_ID n0 newid]> (inmem.nonceMap s) !! k).
Proof.
  intros Hperm Hn. unfold inmem.New. rewrite Hn.
  destruct (newNonce_Ok _ _ _ _ _ _ Hn) as (Hid & _).
  unfold inmem.saveNonce. rewrite bool_decide_eq_true_2 by done.
  eexists. split; [reflexivity|]. intros k. cbn [inmem.nonceMap inmem.setMap inmem.Lock].
  erewrite foldl_range with
    (g := fun v => Some (if inmem.superseded (set_ID n0 newid) v
                         then set_IsValid v false else v)); [|..|done].
  - by destruct (_ !! k).
  - intros acc k0 v k' Hne. simpl.
    destruct (inmem.superseded _ v); [by rewrite lookup_insert_ne|done].
  - intros acc k0 v Hk0. simpl.
    destruct (inmem.superseded _ v); [by rewrite lookup_insert_eq|done].
Qed.

Lemma superseded_self (n : Nonce) : inmem.superseded n n = false.
Proof. apply bool_decide_eq_false_2. intros (_ & _ & _ & H). done. Qed.

Lemma set_IsValid_id (v : Nonce) : IsValid v = false -> set_IsValid v false = v.
Proof. destruct v; simpl; intros ->; done. Qed.

(** The in-memory half of the property of New. *)
Lemma inmem_New_invalidates (order : gmap string Nonce -> list (string * Nonce))
    (rawSalt : list Z) (now : Time) (newid : UUID) (action : string)
    (uid : UUID) (expiresIn : Duration) (s : inmem.inMemStore) :
  visits_all order ->
  fresh_in_map newid (inmem.nonceMap s) ->
  exists n s',
    inmem.New order (Ok rawSalt) now newid action uid expiresIn s = (Ok n, s')
    /\ inmem.nonceMap s' !! Token n = Some n
    /\ IsValid n = true /\ UserID n = uid /\ Action n = action
    /\ (forall k v, inmem.nonceMap s' !! k = Some v ->
          IsValid v = true -> UserID v = uid -> Action v = action ->
          k = Token n)
    /\ (forall k v, k <> Token n -> inmem.nonceMap s !! k = Some v ->
          inmem.nonceMap s' !! k = Some (supersede action uid v))
    /\ (at_most_one_valid (inmem.nonceMap s) ->
        at_most_one_valid (inmem.nonceMap s')).
Proof.
  intros Hperm Hfresh.
  destruct (newNonce (Ok rawSalt) now action uid expiresIn) as [n0|] eqn:Hn;
    [|done].
  destruct (inmem_New_lookup order _ _ newid _ _ _ s _ Hperm Hn) as (s' & HNew & Hs').
  destruct (newNonce_Ok _ _ _ _ _ _ Hn) as (Hid & Hu & Ha & _ & Hv).
  set (n := set_ID n0 newid) in *.
  assert (HT : Token n = Token n0) by done.
  assert (Hother : forall k v, k <> Token n -> inmem.nonceMap s !! k = Some v ->
            inmem.nonceMap s' !! k = Some (supersede action uid v)).
  { intros k v Hk Hkv. rewrite Hs', lookup_insert_ne, Hkv by congruence. simpl.
    f_equal. unfold inmem.superseded, supersede.
    destruct (IsValid v) eqn:Ev.
    - specialize (Hfresh _ _ Hkv).
      erewrite (bool_decide_ext _ (UserID v = uid /\ Action v = action)); [done|].
      subst n. simpl. rewrite Hu, Ha. split; [tauto|].
      intros [? ?]. repeat split; done.
    - rewrite bool_decide_eq_false_2 by (intros [? _]; done).
      case_bool_decide; [by rewrite set_IsValid_id|done]. }
  assert (Hunique : forall k v, inmem.nonceMap s' !! k = Some v ->
            IsValid v = true -> UserID v = uid -> Action v = action ->
            k = Token n).
  { intros k v Hkv Hval Huid Hact.
    destruct (decide (k = Token n)) as [|Hne]; [done|exfalso].
    rewrite Hs', lookup_insert_ne in Hkv by congruence.
    destruct (inmem.nonceMap s !! k) as [v0|] eqn:E; [|done].
    simpl in Hkv. injection Hkv as <-.
    destruct (inmem.superseded n v0) eqn:Es; [done|].
    apply bool_decide_eq_false_1 in Es. apply Es.
    subst n. simpl. rewrite Hu, Ha. repeat split; try done.
    by apply (Hfresh _ _ E). }
  exists n, s'. split; [done|].
  split.
  { rewrite Hs', <- HT, lookup_insert_eq. simpl. by rewrite superseded_self. }
  do 3 (split; [done|]). split; [done|]. split; [done|].
  intros Hinv k1 k2 v1 v2 H1 H2 Hv1 Hv2 Huu Haa.
  destruct (decide (UserID v1 = uid /\ Action v1 = action)) as [[E1 E2]|Hpair].
  { rewrite (Hunique _ _ H1), (Hunique _ _ H2); congruence. }
  assert (Hold : forall k v, inmem.nonceMap s' !! k = Some v -> IsValid v = true ->
            ~ (UserID v = uid /\ Action v = action) ->
            inmem.nonceMap s !! k = Some v).
  { intros k v Hkv Hval Hp. rewrite Hs' in Hkv.
    destruct (decide (k = Token n)) as [->|Hne].
    - rewrite <- HT, lookup_insert_eq in Hkv. simpl in Hkv.
      rewrite superseded_self in Hkv. injection Hkv as <-. by destruct Hp.
    - rewrite lookup_insert_ne in Hkv by congruence.
      destruct (inmem.nonceMap s !! k) as [v0|]; [|done]. simpl in Hkv.
      destruct (inmem.superseded n v0); injection Hkv as <-; done. }
  eapply Hinv; try eapply Hold; try done. by rewrite <- Huu, <- Haa.
Qed.

Lemma sqlx_superseded_fresh (n v : Nonce) :
  ID v <> ID n ->
  (if sqlx.superseded n v then set_IsValid v false else v)
  = supersede (Action n) (UserID n) v.
Proof.
  intros Hid. unfold sqlx.superseded, supersede.
  destruct (IsValid v) eqn:Ev.
  - erewrite (bool_decide_ext _ (UserID v = UserID n /\ Action v = Action n));
      [done|].
    split; [tauto|]. intros [? ?]. repeat split; done.
  - rewrite bool_decide_eq_false_2 by (intros [? _]; done).
    case_bool_decide; [by rewrite set_IsValid_id|done].
Qed.

Lemma supersede_valid (action : string) (uid : UUID) (v : Nonce) :
  IsValid (supersede action uid v) = true ->
  supersede action uid v = v /\ ~ (UserID v = uid /\ Action v = action).
Proof. unfold supersede. case_bool_decide; [done|]. done. Qed.

(** The database half of the property of New. *)
Lemma sqlx_New_invalidates (rawSalt : list Z) (now : Time) (newid : UUID)
    (action : string) (uid : UUID) (expiresIn : Duration) (d : sqlx.DB) :
  healthy d ->
  fresh_in_rows newid (sqlx.rows d) ->
  exists n d',
    sqlx.New (Ok rawSalt) now newid action uid expiresIn d = (Ok n, d')
    /\ sqlx.rows d' = map (supersede action uid) (sqlx.rows d) ++ [n]
    /\ IsValid n = true /\ UserID n = uid /\ Action n = action
    /\ (forall (i : nat) v, sqlx.rows d' !! i = Some v ->
          IsValid v = true -> UserID v = uid -> Action v = action ->
          i = length (sqlx.rows d))
    /\ (at_most_one_valid_row (sqlx.rows d) ->
        at_most_one_valid_row (sqlx.rows d')).
Proof.
  intros Hh Hfresh.
  destruct (newNonce (Ok rawSalt) now action uid expiresIn) as [n0|] eqn:Hn;
    [|done].
  destruct (sqlx_New_healthy _ _ newid _ _ _ d _ Hh Hn) as (d' & HNew & Hrows & _).
  destruct (newNonce_Ok _ _ _ _ _ _ Hn) as (Hid & Hu & Ha & _ & Hv).
  set (n := set_ID n0 newid) in *.
  assert (Hr : sqlx.rows d' = map (supersede action uid) (sqlx.rows d) ++ [n]).
  { rewrite Hrows. unfold sqlx.sqlInvalidate. rewrite map_app. simpl.
    fold (inmem.superseded n n). rewrite superseded_self. f_equal.
    apply map_ext_in. intros r Hin. apply list_elem_of_In in Hin.
    rewrite sqlx_superseded_fresh by (apply (Hfresh _ Hin)).
    subst n. simpl. by rewrite Hu, Ha. }
  assert (Hold : forall (i : nat) v, sqlx.rows d' !! i = Some v ->
            IsValid v = true -> i <> length (sqlx.rows d) ->
            sqlx.rows d !! i = Some v /\ ~ (UserID v = uid /\ Action v = action)).
  { intros i v Hi Hval Hne. rewrite Hr in Hi.
    destruct (decide (i < length (sqlx.rows d))%nat) as [Hlt|Hge].
    - rewrite lookup_app_l in Hi by (by rewrite length_map).
      rewrite list_lookup_fmap in Hi.
      destruct (sqlx.rows d !! i) as [v0|]; [|done]. simpl in Hi.
      injection Hi as <-. destruct (supersede_valid _ _ _ Hval) as [-> ?]. done.
    - apply lookup_lt_Some in Hi. rewrite length_app, length_map in Hi.
      simpl in Hi. lia. }
  exists n, d'. split; [done|]. split; [done|].
  do 3 (split; [done|]). split.
  - intros i v Hi Hval Huid Hact.
    destruct (decide (i = length (sqlx.rows d))) as [|Hne]; [done|].
    destruct (Hold _ _ Hi Hval Hne) as [_ []]. done.
  - intros Hinv i j v1 v2 Hi Hj Hv1 Hv2 Huu Haa.
    destruct (decide (i = length (sqlx.rows d))) as [->|Hi'];
      destruct (decide (j = length (sqlx.rows d))) as [->|Hj']; [done|..].
    + destruct (Hold _ _ Hj Hv2 Hj') as [_ []].
      rewrite Hr, lookup_app_r, length_map, Nat.sub_diag in Hi
        by (by rewrite length_map).
      injection Hi as <-. by rewrite <- Huu, <- Haa.
    + destruct (Hold _ _ Hi Hv1 Hi') as [_ []].
      rewrite Hr, lookup_app_r, length_map, Nat.sub_diag in Hj
        by (by rewrite length_map).
      injection Hj as <-. by rewrite Huu, Haa.
    + destruct (Hold _ _ Hi Hv1 Hi') as [Hi0 _].
      destruct (Hold _ _ Hj Hv2 Hj') as [Hj0 _].
      by eapply Hinv.
Qed.

(** C2. After New, the pair of user and action has one valid record,
    the new one: every other record of the pair has been left invalid,
    records of other pairs are as they were, and a store that had at
    most one valid record for each pair still has. The identifier drawn
    for the new record is taken to be the one of no stored record. *)
Theorem New_leaves_one_valid (rawSalt : list Z) (now : Time) (newid : UUID)
    (action : string) (uid : UUID) (expiresIn : Duration) :
  (forall order s,
      visits_all order ->
      fresh_in_map newid (inmem.nonceMap s) ->
      exists n s',
        inmem.New order (Ok rawSalt) now newid action uid expiresIn s = (Ok n, s')
        /\ inmem.nonceMap s' !! Token n = Some n
        /\ IsValid n = true /\ UserID n = uid /\ Action n = action
        /\ (forall k v, inmem.nonceMap s' !! k = Some v ->
              IsValid v = true -> UserID v = uid -> Action v = action ->
              k = Token n)
        /\ (forall k v, k <> Token n -> inmem.nonceMap s !! k = Some v ->
              inmem.nonceMap s' !! k = Some (supersede action uid v))
        /\ (at_most_one_valid (inmem.nonceMap s) ->
            at_most_one_valid (inmem.nonceMap s')))
  /\ (forall d,
      healthy d ->
      fresh_in_rows newid (sqlx.rows d) ->
      exists n d',
        sqlx.New (Ok rawSalt) now newid action uid expiresIn d = (Ok n, d')
        /\ sqlx.rows d' = map (supersede action uid) (sqlx.rows d) ++ [n]
        /\ IsValid n = true /\ UserID n = uid /\ Action n = action
        /\ (forall (i : nat) v, sqlx.rows d' !! i = Some v ->
              IsValid v = true -> UserID v = uid -> Action v = action ->
              i = length (sqlx.rows d))
        /\ (at_most_one_valid_row (sqlx.rows d) ->
            at_most_one_valid_row (sqlx.rows d'))).
Proof.
  split.
  - intros. by apply inmem_New_invalidates.
  - intros. by apply sqlx_New_invalidates.
Qed.

Lemma visits_all_map_to_list : visits_all map_to_list.
Proof. intros m. reflexivity. Qed.

(** A second New for the pair of [testNonce], one second later. *)
Lemma New_leaves_one_valid_witness :
  (exists n s',
     inmem.New map_to_list (Ok (repeat 0 16)) (2 * Second) 10 "reset-password"
       1 Minute (inmem.mkStore {[ testToken := testNonce ]} 0) = (Ok n, s')
     /\ inmem.nonceMap s' !! Token n = Some n
     /\ IsValid n = true)
  /\ (exists n d',
     sqlx.New (Ok (repeat 0 16)) (2 * Second) 10 "reset-password" 1 Minute
       (sqlx.mkDB [testNonce] 0 (fun _ => false)) = (Ok n, d')
     /\ sqlx.rows d' = [set_IsValid testNonce false; n]
     /\ IsValid n = true).
Proof.
  split.
  - destruct (proj1 (New_leaves_one_valid (repeat 0 16) (2 * Second) 10
                       "reset-password" 1 Minute)
                map_to_list (inmem.mkStore {[ testToken := testNonce ]} 0))
      as (n & s' & HNew & Hn & Hv & _).
    + exact visits_all_map_to_list.
    + intros k v Hk. simpl in Hk.
      apply lookup_singleton_Some in Hk as [_ <-]. discriminate.
    + exists n, s'. split; [exact HNew|]. split; [exact Hn|exact Hv].
  - destruct (proj2 (New_leaves_one_valid (repeat 0 16) (2 * Second) 10
                       "reset-password" 1 Minute)
                (sqlx.mkDB [testNonce] 0 (fun _ => false)))
      as (n & d' & HNew & Hrows & Hv & _).
    + intros i. reflexivity.
    + intros r Hr. apply list_elem_of_singleton in Hr. subst r. discriminate.
    + exists n, d'. split; [exact HNew|]. split; [exact Hrows|exact Hv].
Defined.

(** ** Consume *)

Lemma find_sqlMarkUsed (token : string) (rs : list Nonce) (n : Nonce) :
  List.find (sqlx.byToken token) rs = Some n ->
  List.find (sqlx.byToken token) (sqlx.sqlMarkUsed token rs)
  = Some (set_IsUsed n true).
Proof.
  unfold sqlx.sqlMarkUsed, sqlx.byToken.
  induction rs as [|r rs IH]; [done|]. simpl.
  destruct (bool_decide (Token r = token)) eqn:E.
  - intros [= ->]. simpl. by rewrite E.
  - intros H. rewrite E. by apply IH.
Qed.

Lemma find_byToken_Some (token : string) (rs : list Nonce) (n : Nonce) :
  List.find (sqlx.byToken token) rs = Some n -> n ∈ rs /\ Token n = token.
Proof.
  intros H. apply find_some in H as [Hin Ht].
  split; [by apply list_elem_of_In|]. by apply bool_decide_eq_true_1 in Ht.
Qed.

(** The in-memory half. *)
Lemma inmem_Consume_spec (newid : UUID) (token : string) (s : inmem.inMemStore) :
  checkToken token = None ->
  match inmem.nonceMap s !! token with
  | None =>
      exists s', inmem.Consume newid token s = (Err ErrTokenNotFound, s')
                 /\ inmem.nonceMap s' = inmem.nonceMap s
  | Some n =>
      if IsUsed n
      then exists s', inmem.Consume newid token s = (Err ErrTokenUsed, s')
                      /\ inmem.nonceMap s' = inmem.nonceMap s
      else exists n' s',
          inmem.Consume newid token s = (Ok n', s')
          /\ n' = set_IsUsed (if bool_decide (ID n = uuid.Nil)
                              then set_ID n newid else n) true
          /\ inmem.nonceMap s' = <[Token n := n']> (inmem.nonceMap s)
  end.
Proof.
  intros Ht. unfold inmem.Consume, inmem.getNonce. rewrite Ht. simpl.
  destruct (inmem.nonceMap s !! token) as [n|]; [|by eexists].
  destruct (bool_decide (IsUsed n = true)) eqn:Eb.
  - apply bool_decide_eq_true_1 in Eb. rewrite Eb. by eexists.
  - apply bool_decide_eq_false_1, not_true_is_false in Eb. rewrite Eb.
    unfold inmem.saveNonce. simpl.
    case_bool_decide; do 2 eexists; (split; [reflexivity|]); done.
Qed.

(** The database half. *)
Lemma sqlx_Consume_spec (token : string) (d : sqlx.DB) :
  healthy d ->
  checkToken token = None ->
  match List.find (sqlx.byToken token) (sqlx.rows d) with
  | None =>
      exists d', sqlx.Consume token d = (Err ErrTokenNotFound, d')
                 /\ sqlx.rows d' = sqlx.rows d
  | Some n =>
      if IsUsed n
      then exists d', sqlx.Consume token d = (Err ErrTokenUsed, d')
                      /\ sqlx.rows d' = sqlx.rows d
      else exists d',
          sqlx.Consume token d = (Ok (set_IsUsed n true), d')
          /\ sqlx.rows d' = sqlx.sqlMarkUsed token (sqlx.rows d)
  end.
Proof.
  intros Hh Ht. unfold sqlx.Consume. rewrite Ht.
  unfold sqlx.db_Get. rewrite Hh.
  destruct (find (sqlx.byToken token) (sqlx.rows d)) as [n|]; [|by eexists].
  destruct (bool_decide (IsUsed n = true)) eqn:Eb.
  - apply bool_decide_eq_true_1 in Eb. rewrite Eb. by eexists.
  - apply bool_decide_eq_false_1, not_true_is_false in Eb. rewrite Eb.
    healthy_calls Hh. by eexists.
Qed.

(** C4. Given a well-shaped token, Consume answers token-not-found when
    no record has the token and the used-token error when the record is
    already used, leaving the store as it was; otherwise it stores the
    record with IsUsed set and returns it. Neither the action, nor the
    user, nor IsValid, nor the expiry of the record is looked at: the
    last case holds for every record that is not used. *)
Theorem Consume_marks_used (token : string) :
  checkToken token = None ->
  (forall newid s,
      (inmem.nonceMap s !! token = None ->
       exists s', inmem.Consume newid token s = (Err ErrTokenNotFound, s')
                  /\ inmem.nonceMap s' = inmem.nonceMap s)
      /\ (forall n, inmem.nonceMap s !! token = Some n -> IsUsed n = true ->
          exists s', inmem.Consume newid token s = (Err ErrTokenUsed, s')
                     /\ inmem.nonceMap s' = inmem.nonceMap s)
      /\ (forall n, inmem.nonceMap s !! token = Some n -> IsUsed n = false ->
          exists n' s', inmem.Consume newid token s = (Ok n', s')
                        /\ consumed n n'
                        /\ inmem.nonceMap s' = <[Token n := n']> (inmem.nonceMap s)
                        /\ inmem.nonceMap s' !! Token n = Some n'))
  /\ (forall d, healthy d ->
      (List.find (sqlx.byToken token) (sqlx.rows d) = None ->
       exists d', sqlx.Consume token d = (Err ErrTokenNotFound, d')
                  /\ sqlx.rows d' = sqlx.rows d)
      /\ (forall n, List.find (sqlx.byToken token) (sqlx.rows d) = Some n ->
          IsUsed n = true ->
          exists d', sqlx.Consume token d = (Err ErrTokenUsed, d')
                     /\ sqlx.rows d' = sqlx.rows d)
      /\ (forall n, List.find (sqlx.byToken token) (sqlx.rows d) = Some n ->
          IsUsed n = false ->
          exists n' d', sqlx.Consume token d = (Ok n', d')
                        /\ consumed n n'
                        /\ sqlx.rows d' = sqlx.sqlMarkUsed token (sqlx.rows d)
                        /\ List.find (sqlx.byToken token) (sqlx.rows d') = Some n')).
Proof.
  intros Ht. split.
  - intros newid s. pose proof (inmem_Consume_spec newid token s Ht) as H.
    split; [|split].
    + intros E. by rewrite E in H.
    + intros n E Eu. by rewrite E, Eu in H.
    + intros n E Eu. rewrite E, Eu in H.
      destruct H as (n' & s' & HC & -> & Hm).
      eexists _, s'. split; [exact HC|]. split.
      { unfold consumed. case_bool_decide; simpl; repeat split; done. }
      split; [done|]. by rewrite Hm, lookup_insert_eq.
  - intros d Hh. pose proof (sqlx_Consume_spec token d Hh Ht) as H.
    split; [|split].
    + intros E. by rewrite E in H.
    + intros n E Eu. by rewrite E, Eu in H.
    + intros n E Eu. rewrite E, Eu in H. destruct H as (d' & HC & Hr).
      exists (set_IsUsed n true), d'. split; [done|]. split.
      { unfold consumed. simpl. repeat split; done. }
      split; [done|]. rewrite Hr. by apply find_sqlMarkUsed.
Qed.

(** Consuming a superseded nonce, at no particular time. *)
Lemma Consume_marks_used_witness :
  exists n' s',
    inmem.Consume 0 testToken
      (inmem.mkStore {[ testToken := set_IsValid testNonce false ]} 0)
    = (Ok n', s')
    /\ consumed (set_IsValid testNonce false) n'
    /\ inmem.nonceMap s' !! testToken = Some n'.
Proof.
  assert (Ht : checkToken testToken = None) by (vm_compute; reflexivity).
  destruct (proj2 (proj2 (proj1 (Consume_marks_used testToken Ht) 0
              (inmem.mkStore {[ testToken := set_IsValid testNonce false ]} 0)))
              (set_IsValid testNonce false))
    as (n' & s' & HC & Hc & _ & Hl).
  - apply lookup_singleton_eq.
  - reflexivity.
  - exists n', s'. split; [exact HC|]. split; [exact Hc|exact Hl].
Defined.

(** ** The sweep *)

Lemma inmem_sweep_lookup (order : gmap string Nonce -> list (string * Nonce))
    (now : Time) (s : inmem.inMemStore) (k : string) :
  visits_all order ->
  inmem.nonceMap (inmem.sweep order now s) !! k
  = inmem.nonceMap s !! k
      ≫= (fun v => if Before (ExpiresAt v) now then None else Some v).
Proof.
  intros Hperm. unfold inmem.sweep. cbn [inmem.nonceMap inmem.setMap inmem.Lock].
  apply foldl_range; [| |done].
  - intros acc k0 v k' Hne. simpl.
    destruct (Before _ _); [by rewrite lookup_delete_ne|done].
  - intros acc k0 v Hk0. simpl.
    destruct (Before _ _); [by rewrite lookup_delete_eq|done].
Qed.

Lemma sqlx_sweep_healthy (now : Time) (d : sqlx.DB) :
  healthy d ->
  exists d', sqlx.sweep now d = Some d'
             /\ sqlx.rows d' = sqlx.sqlDelete now (sqlx.rows d)
             /\ sqlx.fault d' = sqlx.fault d.
Proof.
  intros Hh. unfold sqlx.sweep. healthy_calls Hh. by eexists.
Qed.

Lemma find_byToken_None (token : string) (rs : list Nonce) :
  (forall r, r ∈ rs -> Token r <> token) ->
  List.find (sqlx.byToken token) rs = None.
Proof.
  intros H. destruct (find _ rs) as [n|] eqn:E; [|done].
  apply find_byToken_Some in E as [Hin Ht]. by destruct (H _ Hin).
Qed.

(** C8. A sweep at [now] removes the records whose ExpiresAt is before
    [now] and keeps the others, those expiring at [now] included; after
    it, Check of the token of a removed record answers token-not-found.
    For the database the sweep is one whose calls succeed, and the
    removed record is the only one with its token. *)
Theorem sweep_removes_expired (now : Time) :
  (forall order s,
      visits_all order ->
      (forall k v,
          inmem.nonceMap (inmem.sweep order now s) !! k = Some v
          <-> inmem.nonceMap s !! k = Some v /\ now <= ExpiresAt v)
      /\ (forall token v now' action uid,
          checkToken token = None ->
          inmem.nonceMap s !! token = Some v -> ExpiresAt v < now ->
          (inmem.Check now' token action uid (inmem.sweep order now s)).1
          = Some ErrTokenNotFound))
  /\ (forall d,
      healthy d ->
      exists d',
        sqlx.sweep now d = Some d'
        /\ sqlx.rows d' = sqlx.sqlDelete now (sqlx.rows d)
        /\ (forall r, r ∈ sqlx.rows d' <-> r ∈ sqlx.rows d /\ now <= ExpiresAt r)
        /\ (forall token r now' action uid,
            checkToken token = None ->
            r ∈ sqlx.rows d -> Token r = token -> ExpiresAt r < now ->
            (forall r', r' ∈ sqlx.rows d -> Token r' = token -> r' = r) ->
            (sqlx.Check now' token action uid d').1 = Some ErrTokenNotFound)).
Proof.
  split.
  - intros order s Hperm.
    assert (Hl : forall k v,
               inmem.nonceMap (inmem.sweep order now s) !! k = Some v
               <-> inmem.nonceMap s !! k = Some v /\ now <= ExpiresAt v).
    { intros k v. rewrite inmem_sweep_lookup by done.
      destruct (inmem.nonceMap s !! k) as [v0|]; simpl;
        [|split; [done|by intros [? _]]].
      unfold Before. destruct (ExpiresAt v0 <? now) eqn:E.
      - apply Z.ltb_lt in E. split; [done|]. intros [[= ->] ?]. lia.
      - apply Z.ltb_ge in E. split; [by intros [= ->]|]. by intros [[= ->] _]. }
    split; [done|].
    intros token v now' action uid Ht Hs Hexp.
    unfold inmem.Check, inmem.getNonce. rewrite Ht.
    cbn [inmem.nonceMap inmem.RLock].
    destruct (inmem.nonceMap (inmem.sweep order now s) !! token) as [v'|] eqn:E;
      [|done].
    apply Hl in E as [E Hle]. rewrite Hs in E. injection E as ->. lia.
  - intros d Hh. destruct (sqlx_sweep_healthy now d Hh) as (d' & Hs & Hr & Hf).
    assert (Hl : forall r, r ∈ sqlx.rows d' <-> r ∈ sqlx.rows d /\ now <= ExpiresAt r).
    { intros r. rewrite Hr. unfold sqlx.sqlDelete.
      rewrite !list_elem_of_In, filter_In. unfold Before.
      rewrite negb_true_iff, Z.ltb_ge. done. }
    exists d'. split; [done|]. split; [done|]. split; [done|].
    intros token r now' action uid Ht Hin Htok Hexp Huniq.
    unfold sqlx.Check, sqlx.db_Get. rewrite Ht, Hf, Hh.
    rewrite find_byToken_None; [done|].
    intros r' Hr' Ht'. apply Hl in Hr' as [Hr' Hle].
    rewrite (Huniq _ Hr' Ht') in Hle. lia.
Qed.

(** The sweep of a store that holds [testNonce], one second after its
    expiry. *)
Lemma sweep_removes_expired_witness :
  (inmem.Check (62 * Second) testToken "reset-password" 1
     (inmem.sweep map_to_list (62 * Second)
        (inmem.mkStore {[ testToken := testNonce ]} 0))).1
  = Some ErrTokenNotFound.
Proof.
  apply (proj2 (proj1 (sweep_removes_expired (62 * Second)) map_to_list
                  (inmem.mkStore {[ testToken := testNonce ]} 0)
                  visits_all_map_to_list)
           testToken testNonce (62 * Second) "reset-password" 1).
  - vm_compute. reflexivity.
  - apply lookup_singleton_eq.
  - reflexivity.
Defined.

(** ** Get *)

Lemma Get_collect (action : string) (uid : UUID) (l : list (string * Nonce)) :
  forall init,
    foldl (fun (nonces : list Nonce) '(_, n) =>
             if inmem.matches action uid n then nonces ++ [n] else nonces)
          init l
    = init ++ List.filter (inmem.matches action uid) l.*2.
Proof.
  induction l as [|[k n] l IH]; intros init; simpl.
  - by rewrite app_nil_r.
  - rewrite IH. destruct (inmem.matches action uid n); [|done].
    by rewrite <- app_assoc.
Qed.

Lemma newest_spec (l : list Nonce) :
  forall x,
    (inmem.newest l x = x \/ (inmem.newest l x ∈ l /\ IsValid (inmem.newest l x) = true))
    /\ CreatedAt x <= CreatedAt (inmem.newest l x)
    /\ forall v, v ∈ l -> IsValid v = true ->
                 CreatedAt v <= CreatedAt (inmem.newest l x).
Proof.
  unfold inmem.newest.
  induction l as [|n l IH]; intros x; simpl.
  { split; [by left|]. split; [lia|]. intros v H. by apply elem_of_nil in H. }
  case_bool_decide as Hc.
  - destruct Hc as [Hlt Hval]. destruct (IH n) as (Hr & Hle & Hmax).
    split; [|split].
    + right. destruct Hr as [->|[Hin Hv]]; [split; [by left|done]|].
      split; [by right|done].
    + lia.
    + intros v Hv Hvv. apply elem_of_cons in Hv as [->|Hv]; [done|by apply Hmax].
  - destruct (IH x) as (Hr & Hle & Hmax).
    split; [|split].
    + destruct Hr as [Hr|[Hin Hv]]; [by left|]. right. split; [by right|done].
    + done.
    + intros v Hv Hvv. apply elem_of_cons in Hv as [->|Hv]; [|by apply Hmax].
      assert (~ CreatedAt x < CreatedAt n) by (intros ?; by apply Hc). lia.
Qed.

Lemma matches_spec (action : string) (uid : UUID) (n : Nonce) :
  inmem.matches action uid n = true <-> Action n = action /\ UserID n = uid.
Proof. unfold inmem.matches. by rewrite bool_decide_eq_true. Qed.

Lemma Get_matching (order : gmap string Nonce -> list (string * Nonce))
    (action : string) (uid : UUID) (m : gmap string Nonce) (v : Nonce) :
  visits_all order ->
  v ∈ List.filter (inmem.matches action uid) (order m).*2
  <-> exists k, m !! k = Some v /\ Action v = action /\ UserID v = uid.
Proof.
  intros Hperm. rewrite list_elem_of_In, filter_In, <- list_elem_of_In.
  rewrite matches_spec, list_elem_of_fmap. split.
  - intros [([k v'] & -> & Hin) Hm]. exists k. split; [|done].
    rewrite (Hperm m) in Hin. by apply elem_of_map_to_list in Hin.
  - intros (k & Hk & Hm). split; [|done]. exists (k, v). split; [done|].
    rewrite (Hperm m). by apply elem_of_map_to_list.
Qed.

(** The in-memory half: what Get answers when the pair has a record. *)
Lemma inmem_Get_spec (order : gmap string Nonce -> list (string * Nonce))
    (action : string) (uid : UUID) (s : inmem.inMemStore) :
  visits_all order ->
  (exists k v, inmem.nonceMap s !! k = Some v
               /\ Action v = action /\ UserID v = uid) ->
  ((inmem.Get order action uid s).1 = Err ErrTokenNotFound
   /\ forall k v, inmem.nonceMap s !! k = Some v -> Action v = action ->
                  UserID v = uid -> IsValid v = true -> CreatedAt v <= 0)
  \/ (exists k n,
        (inmem.Get order action uid s).1 = Ok n
        /\ inmem.nonceMap s !! k = Some n
        /\ Action n = action /\ UserID n = uid /\ IsValid n = true
        /\ forall k' v, inmem.nonceMap s !! k' = Some v -> Action v = action ->
                        UserID v = uid -> IsValid v = true ->
                        CreatedAt v <= CreatedAt n).
Proof.
  intros Hperm (k0 & v0 & Hk0 & Ha0 & Hu0).
  unfold inmem.Get. cbn [inmem.nonceMap inmem.RLock repeat].
  rewrite Get_collect.
  set (ms := List.filter (inmem.matches action uid) (order (inmem.nonceMap s)).*2).
  assert (Hms : forall v, v ∈ ms <-> exists k, inmem.nonceMap s !! k = Some v
                                     /\ Action v = action /\ UserID v = uid)
    by (intros v; by apply Get_matching).
  assert (Hv0 : v0 ∈ ms) by (apply Hms; eauto).
  destruct ms as [|m1 ms'] eqn:Ems; [by apply elem_of_nil in Hv0|].
  rewrite <- Ems in *. clear Ems m1 ms'.
  destruct (newest_spec ms zeroNonce) as (Hr & Hle & Hmax).
  assert (Hlen : exists j, length ([zeroNonce] ++ ms) = S (S j)).
  { destruct ms; [by apply elem_of_nil in Hv0|]. simpl. eauto. }
  destruct Hlen as [j Hlen].
  rewrite !bool_decide_eq_false_2 by (rewrite Hlen; lia).
  assert (Hn : inmem.newest ([zeroNonce] ++ ms) (nth 0 ([zeroNonce] ++ ms) zeroNonce)
               = inmem.newest ms zeroNonce) by done.
  rewrite Hn. set (r := inmem.newest ms zeroNonce) in *.
  destruct (IsValid r) eqn:Er.
  - right. rewrite bool_decide_eq_false_2 by congruence.
    destruct Hr as [Hr|[Hin _]]; [by rewrite Hr in Er|].
    apply Hms in Hin as (k & Hk & Ha & Hu).
    exists k, r. do 5 (split; [done|]).
    intros k' v Hk' Hav Huv Hvv. apply Hmax; [|done]. apply Hms. eauto.
  - left. rewrite bool_decide_eq_true_2 by done. split; [done|].
    intros k v Hk Hav Huv Hvv.
    destruct Hr as [Hr|[_ Hv]]; [|congruence].
    rewrite Hr in Hmax. apply (Hmax v); [|done]. apply Hms. eauto.
Qed.

Lemma sqlx_Get_spec (action : string) (uid : UUID) (d : sqlx.DB) :
  sqlx.fault d (sqlx.calls d) = false ->
  match List.find (sqlx.validFor action uid) (sqlx.rows d) with
  | Some n => (sqlx.Get action uid d).1 = Ok n
  | None => (sqlx.Get action uid d).1 = Err ErrTokenNotFound
  end.
Proof.
  intros Hf. unfold sqlx.Get, sqlx.db_Get. rewrite Hf.
  by destruct (find _ _).
Qed.

Lemma validFor_spec (action : string) (uid : UUID) (r : Nonce) :
  sqlx.validFor action uid r = true
  <-> Action r = action /\ UserID r = uid /\ IsValid r = true.
Proof. unfold sqlx.validFor. by rewrite bool_decide_eq_true. Qed.

(** C1, as the code has it. Get answers with a valid record of the pair
    whenever the pair has one, also when a newer record of the pair is
    not valid, and with token-not-found when the pair has records but no
    valid one (one record or several). The in-memory service returns a
    valid record whose CreatedAt is the greatest among the valid records
    of the pair (records are created after the epoch: CreatedAt is
    positive); the database service returns the first valid record of
    the pair that the query yields, and token-not-found also when the
    pair has no record at all. *)
Theorem Get_newest_valid (action : string) (uid : UUID) :
  (forall order s,
      visits_all order ->
      (forall k v, inmem.nonceMap s !! k = Some v -> 0 < CreatedAt v) ->
      (forall k v,
          inmem.nonceMap s !! k = Some v ->
          Action v = action -> UserID v = uid -> IsValid v = true ->
          exists k' n,
            (inmem.Get order action uid s).1 = Ok n
            /\ inmem.nonceMap s !! k' = Some n
            /\ Action n = action /\ UserID n = uid /\ IsValid n = true
            /\ forall k'' v', inmem.nonceMap s !! k'' = Some v' ->
                 Action v' = action -> UserID v' = uid -> IsValid v' = true ->
                 CreatedAt v' <= CreatedAt n)
      /\ ((exists k v, inmem.nonceMap s !! k = Some v
                       /\ Action v = action /\ UserID v = uid) ->
          (forall k v, inmem.nonceMap s !! k = Some v ->
                       Action v = action -> UserID v = uid -> IsValid v = false) ->
          (inmem.Get order action uid s).1 = Err ErrTokenNotFound))
  /\ (forall d,
      sqlx.fault d (sqlx.calls d) = false ->
      (forall v,
          v ∈ sqlx.rows d ->
          Action v = action -> UserID v = uid -> IsValid v = true ->
          exists n,
            (sqlx.Get action uid d).1 = Ok n
            /\ List.find (sqlx.validFor action uid) (sqlx.rows d) = Some n
            /\ n ∈ sqlx.rows d
            /\ Action n = action /\ UserID n = uid /\ IsValid n = true)
      /\ ((forall v, v ∈ sqlx.rows d ->
                     Action v = action -> UserID v = uid -> IsValid v = false) ->
          (sqlx.Get action uid d).1 = Err ErrTokenNotFound)).
Proof.
  split.
  - intros order s Hperm Hpos. split.
    + intros k v Hk Ha Hu Hv.
      destruct (inmem_Get_spec order action uid s Hperm) as [[_ Hle]|H];
        [by eauto| |done].
      specialize (Hle _ _ Hk Ha Hu Hv). specialize (Hpos _ _ Hk). lia.
    + intros Hex Hinv.
      destruct (inmem_Get_spec order action uid s Hperm Hex)
        as [[H _]|(k & n & _ & Hk & Ha & Hu & Hv & _)]; [done|].
      rewrite (Hinv _ _ Hk Ha Hu) in Hv. done.
  - intros d Hf. pose proof (sqlx_Get_spec action uid d Hf) as H. split.
    + intros v Hin Ha Hu Hv.
      destruct (find _ _) as [n|] eqn:E.
      * exists n. split; [done|]. split; [done|].
        apply find_some in E as [Hn Hc]. apply validFor_spec in Hc.
        split; [by apply list_elem_of_In|done].
      * eapply find_none in E; [|by apply list_elem_of_In].
        assert (sqlx.validFor action uid v = true) by (by apply validFor_spec).
        congruence.
    + intros Hinv. destruct (find _ _) as [n|] eqn:E; [|done].
      apply find_some in E as [Hn Hc]. apply validFor_spec in Hc as (Ha & Hu & Hv).
      apply list_elem_of_In in Hn. rewrite (Hinv _ Hn Ha Hu) in Hv. done.
Qed.

Lemma twoRecords_lookup (k : string) (v : Nonce) :
  twoRecords !! k = Some v ->
  (k = Token olderValid /\ v = olderValid)
  \/ (k = Token newerInvalid /\ v = newerInvalid).
Proof.
  unfold twoRecords. intros H.
  apply lookup_insert_Some in H as [[<- <-]|[_ H]]; [by right|].
  apply lookup_singleton_Some in H as [<- <-]. by left.
Qed.

Lemma twoRecords_positive (k : string) (v : Nonce) :
  twoRecords !! k = Some v -> 0 < CreatedAt v.
Proof. intros H. by apply twoRecords_lookup in H as [[_ ->]|[_ ->]]. Qed.

(** Get on [twoRecords] returns a valid record, though the newest record
    is not valid. *)
Lemma Get_newest_valid_witness :
  exists k n,
    (inmem.Get map_to_list "reset-password" 1 (inmem.mkStore twoRecords 0)).1
    = Ok n
    /\ twoRecords !! k = Some n /\ IsValid n = true.
Proof.
  destruct (proj1 (proj1 (Get_newest_valid "reset-password" 1) map_to_list
                     (inmem.mkStore twoRecords 0) visits_all_map_to_list
                     twoRecords_positive)
              (Token olderValid) olderValid)
    as (k & n & HG & Hk & _ & _ & Hv & _).
  - reflexivity.
  - reflexivity.
  - reflexivity.
  - reflexivity.
  - exists k, n. split; [exact HG|]. split; [exact Hk|exact Hv].
Defined.

(** C1 as claimed fails: with an older valid record and a newer one that
    is not valid, both services return the older record, where the claim
    has token-not-found; and on a single record that is not valid the
    database service answers token-not-found, where the claim has the
    record. *)
Lemma Get_counterexample :
  (inmem.Get map_to_list "reset-password" 1 (inmem.mkStore twoRecords 0)).1
  = Ok olderValid
  /\ (sqlx.Get "reset-password" 1
        (sqlx.mkDB [olderValid; newerInvalid] 0 (fun _ => false))).1
     = Ok olderValid
  /\ ~ claimed_Get [olderValid; newerInvalid] (Ok olderValid)
  /\ (sqlx.Get "reset-password" 1
        (sqlx.mkDB [newerInvalid] 0 (fun _ => false))).1
     = Err ErrTokenNotFound
  /\ ~ claimed_Get [newerInvalid] (Err ErrTokenNotFound).
Proof.
  split; [vm_compute; reflexivity|].
  split; [vm_compute; reflexivity|].
  split; [|split; [vm_compute; reflexivity|]].
  - intros [_ H]. assert (E : Ok olderValid = Err ErrTokenNotFound); [|done].
    apply H. exists newerInvalid. split; [set_solver|]. split; [done|].
    intros v Hv. apply elem_of_cons in Hv as [->|Hv]; [done|].
    apply list_elem_of_singleton in Hv as ->. done.
  - simpl. discriminate.
Qed.

(** The same fall-back for every order of the range. *)
Lemma Get_falls_back (order : gmap string Nonce -> list (string * Nonce)) :
  visits_all order ->
  (inmem.Get order "reset-password" 1 (inmem.mkStore twoRecords 0)).1
  = Ok olderValid.
Proof.
  intros Hperm.
  destruct (inmem_Get_spec order "reset-password" 1 (inmem.mkStore twoRecords 0)
              Hperm) as [[_ Hle]|(k & n & -> & Hk & _ & _ & Hv & _)].
  - exists (Token olderValid), olderValid. done.
  - specialize (Hle (Token olderValid) olderValid). simpl in Hle.
    assert (5 <= 0); [|lia]. by apply Hle.
  - apply twoRecords_lookup in Hk as [[_ ->]|[_ ->]]; done.
Qed.

(** With no record in the map, the in-memory Get returns the zero Nonce
    and no error: the slice it collects into starts with one zero
    element, so its length is never 0. *)
Lemma inmem_Get_no_record (order : gmap string Nonce -> list (string * Nonce))
    (action : string) (uid : UUID) :
  visits_all order ->
  (inmem.Get order action uid inmem.empty).1 = Ok zeroNonce.
Proof.
  intros Hperm. unfold inmem.Get.
  cbn [inmem.nonceMap inmem.RLock repeat inmem.empty].
  specialize (Hperm ∅). rewrite map_to_list_empty in Hperm.
  apply Permutation_nil_r in Hperm. rewrite Hperm. done.
Qed.

(** ** Shutdown *)

Section Sweeper.
Context {S : Type}.
Variable sweep : Time -> S -> option S.

Lemma steps_trans (s1 s2 s3 : sweeper.state S) :
  sweeper.steps sweep s1 s2 -> sweeper.steps sweep s2 s3 ->
  sweeper.steps sweep s1 s3.
Proof.
  induction 1 as [|? ? ? Hs _ IH]; [done|].
  intros H3. eapply sweeper.steps_step; [exact Hs|by apply IH].
Qed.

(** Once [removeExpired] has returned nobody receives from [quit]: the
    only step left is another caller blocking in the send. *)
Lemma returned_step (s s' : sweeper.state S) :
  sweeper.step sweep s s' ->
  sweeper.at_pc s = sweeper.Returned ->
  sweeper.at_pc s' = sweeper.Returned
  /\ sweeper.completed s' = sweeper.completed s
  /\ sweeper.sending s' = Datatypes.S (sweeper.sending s)
  /\ sweeper.store s' = sweeper.store s.
Proof. destruct 1; simpl; intros Hpc; try congruence. done. Qed.

Lemma returned_steps (s s' : sweeper.state S) :
  sweeper.steps sweep s s' ->
  sweeper.at_pc s = sweeper.Returned ->
  sweeper.at_pc s' = sweeper.Returned
  /\ sweeper.completed s' = sweeper.completed s
  /\ (sweeper.sending s <= sweeper.sending s')%nat
  /\ sweeper.store s' = sweeper.store s.
Proof.
  induction 1 as [|s1 s2 s3 Hs _ IH]; intros Hpc; [done|].
  destruct (returned_step _ _ Hs Hpc) as (Hpc2 & Hc & Hn & Hst).
  destruct (IH Hpc2) as (? & ? & ? & ?).
  repeat split; [done|congruence|lia|congruence].
Qed.

(** While [removeExpired] runs, a blocked Shutdown returns at the next
    select. *)
Lemma running_Shutdown_returns (s : sweeper.state S) :
  sweeper.at_pc s = sweeper.AtSelect \/ sweeper.at_pc s = sweeper.Sleeping ->
  exists s',
    sweeper.steps sweep (Shutdown s) s'
    /\ sweeper.completed s' = Datatypes.S (sweeper.completed s)
    /\ sweeper.at_pc s' = sweeper.Returned
    /\ sweeper.store s' = sweeper.store s.
Proof.
  intros [Hpc|Hpc].
  - eexists. split.
    + eapply sweeper.steps_step; [|apply sweeper.steps_refl].
      by eapply (sweeper.step_quit sweep (Shutdown s)).
    + done.
  - eexists. split.
    + eapply sweeper.steps_step; [by apply sweeper.step_wake|].
      eapply sweeper.steps_step; [|apply sweeper.steps_refl].
      by eapply sweeper.step_quit.
    + done.
Qed.

(** From the start exactly the states in which [removeExpired] has
    returned have a completed Shutdown, and only one. *)
Lemma completed_once (st : S) (s : sweeper.state S) :
  sweeper.steps sweep (sweeper.start st) s ->
  (sweeper.at_pc s = sweeper.Returned /\ sweeper.completed s = 1%nat)
  \/ (sweeper.at_pc s <> sweeper.Returned /\ sweeper.completed s = 0%nat).
Proof.
  assert (Hinv : forall s1 s2 : sweeper.state S,
             sweeper.steps sweep s1 s2 ->
             (sweeper.at_pc s1 = sweeper.Returned /\ sweeper.completed s1 = 1%nat)
             \/ (sweeper.at_pc s1 <> sweeper.Returned /\ sweeper.completed s1 = 0%nat) ->
             (sweeper.at_pc s2 = sweeper.Returned /\ sweeper.completed s2 = 1%nat)
             \/ (sweeper.at_pc s2 <> sweeper.Returned /\ sweeper.completed s2 = 0%nat)).
  { induction 1 as [|s1 s2 s3 Hs _ IH]; [done|]. intros H1. apply IH.
    destruct Hs; simpl; try done.
    - left. split; [done|]. destruct H1 as [[? ?]|[_ ->]]; [congruence|done].
    - right. split; [done|]. destruct H1 as [[? ?]|[_ ->]]; [congruence|done].
    - right. split; [done|]. destruct H1 as [[? ?]|[_ ->]]; [congruence|done].
    - right. split; [done|]. destruct H1 as [[? ?]|[_ ->]]; [congruence|done]. }
  intros H. apply (Hinv _ _ H). right. done.
Qed.

End Sweeper.

(** C7, as the code has it. A Shutdown called while the sweeper runs
    returns when the sweeper next reaches its select, and the sweeper
    returns with it. A Shutdown called after the sweeper has returned
    never returns: it stays blocked in the send, for no one receives, and
    it does not panic. So of all the calls of Shutdown on a service at
    most one returns, and the stop signal is not idempotent. *)
Theorem Shutdown_stops_once {S : Type} (sweep : Time -> S -> option S) :
  (forall s : sweeper.state S,
      sweeper.at_pc s = sweeper.AtSelect \/ sweeper.at_pc s = sweeper.Sleeping ->
      exists s',
        sweeper.steps sweep (Shutdown s) s'
        /\ sweeper.completed s' = Datatypes.S (sweeper.completed s)
        /\ sweeper.at_pc s' = sweeper.Returned)
  /\ (forall s s' : sweeper.state S,
      sweeper.at_pc s = sweeper.Returned ->
      sweeper.steps sweep (Shutdown s) s' ->
      sweeper.at_pc s' = sweeper.Returned
      /\ sweeper.completed s' = sweeper.completed s
      /\ (1 <= sweeper.sending s')%nat
      /\ ~ can_return sweep (Shutdown s))
  /\ (forall (st : S) (s : sweeper.state S),
      sweeper.steps sweep (sweeper.start st) s ->
      (sweeper.completed s <= 1)%nat
      /\ (sweeper.completed s = 1%nat <-> sweeper.at_pc s = sweeper.Returned)).
Proof.
  split; [|split].
  - intros s Hpc.
    destruct (running_Shutdown_returns sweep s Hpc) as (s' & ? & ? & ? & _).
    eauto.
  - intros s s' Hpc Hsteps.
    destruct (returned_steps sweep _ _ Hsteps Hpc) as (Hpc' & Hc & Hn & _).
    split; [done|]. split; [done|]. split; [simpl in Hn; lia|].
    intros (s'' & Hs'' & Hlt).
    destruct (returned_steps sweep _ _ Hs'' Hpc) as (_ & Hc'' & _). lia.
  - intros st s Hsteps.
    destruct (completed_once sweep st s Hsteps) as [[Hpc Hc]|[Hpc Hc]];
      rewrite Hc; split; try lia; split; try done; try lia.
Qed.

(** A second Shutdown on the stopped in-memory service. *)
Lemma Shutdown_stops_once_witness :
  sweeper.at_pc (Shutdown stopped) = sweeper.Returned
  /\ sweeper.completed (Shutdown stopped) = 1%nat
  /\ (1 <= sweeper.sending (Shutdown stopped))%nat
  /\ ~ can_return (inmem_sweeper map_to_list) (Shutdown stopped).
Proof.
  exact (proj1 (proj2 (Shutdown_stops_once (inmem_sweeper map_to_list)))
           stopped (Shutdown stopped) eq_refl
           (sweeper.steps_refl (inmem_sweeper map_to_list) (Shutdown stopped))).
Defined.

(** C7 as claimed fails: after a first Shutdown has stopped the sweeper
    of the in-memory service, a second Shutdown is reached from the
    start of the service and can never return. *)
Lemma double_Shutdown_counterexample :
  sweeper.steps (inmem_sweeper map_to_list)
    (sweeper.start inmem.empty) (Shutdown stopped)
  /\ ~ can_return (inmem_sweeper map_to_list) (Shutdown stopped).
Proof.
  split.
  - eapply sweeper.steps_step;
      [apply (sweeper.step_Shutdown _ (sweeper.start inmem.empty))|].
    eapply sweeper.steps_step;
      [by eapply (sweeper.step_quit _ (Shutdown (sweeper.start inmem.empty)))|].
    eapply sweeper.steps_step; [apply sweeper.step_Shutdown|].
    apply sweeper.steps_refl.
  - intros (s' & Hs & Hlt).
    destruct (returned_steps _ _ _ Hs eq_refl) as (_ & Hc & _). lia.
Qed.

(** ** The scenarios of the test suite, on the in-memory service *)

Example scenario_New :
  (inmem.New map_to_list (Ok (repeat 0 16)) (1 * Second + 5) 9
     "reset-password" 1 Minute inmem.empty).1 = Ok testNonce.
Proof. vm_compute. reflexivity. Qed.

Example scenario_Check :
  (inmem.Check (2 * Second) testToken "reset-password" 1 afterNew).1 = None
  /\ (inmem.Check (2 * Second) "" "reset-password" 1 afterNew).1
     = Some ErrNoToken
  /\ (inmem.Check (2 * Second) "InvalidToken" "reset-password" 1 afterNew).1
     = Some ErrInvalidToken
  /\ (inmem.Check (2 * Second) testToken "wrong action" 1 afterNew).1
     = Some ErrInvalidToken
  /\ (inmem.Check (2 * Second) testToken "reset-password" 2 afterNew).1
     = Some ErrInvalidToken.
Proof. vm_compute. repeat split. Qed.

Example scenario_CheckExpired :
  let '(r, s) := inmem.New map_to_list (Ok (repeat 0 16)) (1 * Second + 5) 9
                   "reset-password" 1 0 inmem.empty in
  r = Ok (mkNonce 9 1 testToken "reset-password" "AAAAAAAAAAAAAAAAAAAAAA=="
            false true 1 (1 * Second))
  /\ (inmem.Check (1 * Second + 6) testToken "reset-password" 1 s).1
     = Some ErrTokenExpired.
Proof. vm_compute. repeat split. Qed.

Example scenario_CheckInvalid :
  let '(r, s) := inmem.New map_to_list (Ok (repeat 0 16)) (2 * Second) 10
                   "reset-password" 1 Minute afterNew in
  (inmem.Check (3 * Second) testToken "reset-password" 1 s).1
  = Some ErrInvalidToken
  /\ (exists n, r = Ok n /\ (inmem.Get map_to_list "reset-password" 1 s).1 = Ok n
                /\ ID n = 10).
Proof. vm_compute. split; [reflexivity|]. eexists. repeat split. Qed.

Example scenario_Consume :
  let '(r, s) := inmem.Consume 11 testToken afterNew in
  r = Ok (set_IsUsed testNonce true)
  /\ (inmem.Check (2 * Second) testToken "reset-password" 1 s).1
     = Some ErrTokenUsed
  /\ (inmem.Consume 11 testToken s).1 = Err ErrTokenUsed
  /\ (inmem.CheckThenConsume (2 * Second) 11 testToken "reset-password" 1 s).1
     = Err ErrTokenUsed.
Proof. vm_compute. repeat split. Qed.

Example scenario_CheckThenConsume :
  (inmem.CheckThenConsume (2 * Second) 11 testToken "reset-password" 1 afterNew).1
  = Ok (set_IsUsed testNonce true).
Proof. vm_compute. reflexivity. Qed.

(* ===================================================================== *)
(** * Further properties of the code *)
(* ===================================================================== *)

(** ** The tokens New makes *)

Lemma enc_index (v : Z) : (Z.to_nat (Z.land v 63) < 64)%nat.
Proof.
  change 63 with (Z.ones 6). rewrite Z.land_ones by lia.
  pose proof (Z.mod_pos_bound v (2 ^ 6) ltac:(lia)). lia.
Qed.

Lemma enc_plain (v : Z) :
  plain_char (base64.enc base64.encodeStd v) = true
  /\ plain_char (base64.enc base64.encodeURL v) = true.
Proof.
  assert (H : forallb (fun i =>
                plain_char (match String.get i base64.encodeStd with
                            | Some c => c | None => base64.StdPadding end)
                && plain_char (match String.get i base64.encodeURL with
                               | Some c => c | None => base64.StdPadding end))
              (seq 0 64) = true) by (vm_compute; reflexivity).
  rewrite forallb_forall in H.
  specialize (H (Z.to_nat (Z.land v 63))).
  apply andb_true_iff. apply H. apply in_seq. pose proof (enc_index v). lia.
Qed.

Lemma plain_not_blank (c : ascii) (s : string) :
  plain_char c = true -> ~ blank (String c s).
Proof.
  unfold plain_char, blank. intros Hp Hb.
  apply andb_true_iff in Hp as [Ha Hlt]. apply negb_true_iff in Ha.
  apply Z.ltb_lt in Hlt.
  unfold bytes_of_string in Hb. cbn [list_ascii_of_string map] in Hb.
  inversion Hb as [|b r Hs _|b0 b1 r H2 _|b0 b1 b2 r H3 _]; subst.
  - congruence.
  - unfold space2 in H2. apply andb_true_iff in H2 as [H2 _].
    apply Z.eqb_eq in H2. lia.
  - unfold space3 in H3.
    repeat (apply orb_true_iff in H3 as [H3|H3]);
      repeat (apply andb_true_iff in H3 as [H3 _]);
      apply Z.eqb_eq in H3; lia.
Qed.

Lemma EncodeToString_not_blank (src : list Z) :
  src <> [] ->
  ~ blank (base64.StdEncoding src) /\ ~ blank (base64.URLEncoding src).
Proof.
  intros Hne. unfold base64.StdEncoding, base64.URLEncoding.
  destruct src as [|a [|b [|c rest]]]; [done|..];
    cbn [base64.EncodeToString];
    (split; apply plain_not_blank;
     [exact (proj1 (enc_plain _))|exact (proj2 (enc_plain _))]).
Qed.

Lemma sha512_Sum_nonempty (msg : list Z) : sha512.Sum msg <> [].
Proof.
  intros H. apply (f_equal (@length Z)) in H.
  rewrite sha512_Sum_length in H. discriminate H.
Qed.

Lemma New_token_passes_checkToken_aux (rawSalt : list Z) (now : Time)
    (action : string) (uid : UUID) (expiresIn : Duration) (n : Nonce) :
  newNonce (Ok rawSalt) now action uid expiresIn = Ok n ->
  checkToken (Token n) = None.
Proof.
  intros Hn. apply checkToken_None. split.
  - injection Hn as <-. cbn [Token].
    apply EncodeToString_not_blank, sha512_Sum_nonempty.
  - by eapply newNonce_Token_len.
Qed.

(** X1. Every token that newNonce makes is accepted by checkToken: it is
    not blank and it is 88 characters long, whatever the action, the
    user, the clock and the salt. *)
Theorem New_token_passes_checkToken (rawSalt : list Z) (now : Time)
    (action : string) (uid : UUID) (expiresIn : Duration) :
  exists n,
    newNonce (Ok rawSalt) now action uid expiresIn = Ok n
    /\ checkToken (Token n) = None.
Proof.
  eexists. split; [reflexivity|].
  by eapply New_token_passes_checkToken_aux.
Qed.

(** X2. With the 16 bytes the code asks of the random source, the Salt
    of the nonce is 24 characters long, the width of column [salt], and
    the nonce carries no identifier yet. *)
Theorem New_salt_length (rawSalt : list Z) (now : Time)
    (action : string) (uid : UUID) (expiresIn : Duration) (n : Nonce) :
  length rawSalt = 16%nat ->
  newNonce (Ok rawSalt) now action uid expiresIn = Ok n ->
  len (Salt n) = 24 /\ ID n = uuid.Nil.
Proof.
  intros Hl [= <-]. cbn [Salt ID]. split; [|done].
  unfold len, base64.StdEncoding. rewrite EncodeToString_length, Hl. reflexivity.
Qed.

Lemma New_salt_length_witness :
  len (Salt (set_ID testNonce 0)) = 24 /\ ID (set_ID testNonce 0) = uuid.Nil.
Proof.
  apply (New_salt_length (repeat 0 16) (1 * Second + 5) "reset-password" 1
           Minute (set_ID testNonce 0)).
  - reflexivity.
  - vm_compute. reflexivity.
Defined.

(** ** The lifetime of a nonce *)

Lemma checkNonce_fresh (now' : Time) (n : Nonce) :
  IsValid n = true -> IsUsed n = false ->
  checkNonce now' n (Action n) (UserID n)
  = if bool_decide (now' < ExpiresAt n) then None else Some ErrTokenExpired.
Proof.
  intros Hv Hu.
  destruct (checkNonce_in_order now' n (Action n) (UserID n)) as [_ H].
  destruct (H Hv eq_refl eq_refl) as [_ H'].
  destruct (H' Hu) as [Hexp Hok].
  case_bool_decide; [by apply Hok|apply Hexp; lia].
Qed.

Lemma checkNonce_mismatch (now' : Time) (n : Nonce) (action : string) (uid : UUID) :
  action <> Action n \/ uid <> UserID n ->
  checkNonce now' n action uid = Some ErrInvalidToken.
Proof.
  intros H. apply (checkNonce_in_order now' n action uid).
  right. destruct H; [left|right]; congruence.
Qed.

(** X3. The nonce that newNonce makes at instant [now] is accepted by
    checkNonce, for its own action and user, exactly at the instants
    before its ExpiresAt, and answered token-expired from then on.
    ExpiresAt is a whole second, never after [now + expiresIn] and less
    than a second before it; so when the fraction of the creation second
    plus expiresIn stays under one second, the nonce is expired the
    moment it is made. *)
Theorem New_lifetime (rawSalt : list Z) (now : Time)
    (action : string) (uid : UUID) (expiresIn : Duration) :
  exists n,
    newNonce (Ok rawSalt) now action uid expiresIn = Ok n
    /\ ExpiresAt n mod Second = 0
    /\ ExpiresAt n <= now + expiresIn < ExpiresAt n + Second
    /\ (forall now', now' < ExpiresAt n -> checkNonce now' n action uid = None)
    /\ (forall now', ExpiresAt n <= now' ->
          checkNonce now' n action uid = Some ErrTokenExpired)
    /\ (now mod Second + expiresIn < Second ->
        checkNonce now n action uid = Some ErrTokenExpired).
Proof.
  eexists. split; [reflexivity|].
  set (n := mkNonce _ _ _ _ _ _ _ _ _).
  assert (He : ExpiresAt n = now + expiresIn - (now + expiresIn) mod Second)
    by reflexivity.
  pose proof (Z.mod_pos_bound (now + expiresIn) Second ltac:(done)) as Hb.
  assert (Hfresh : forall now',
             checkNonce now' n action uid
             = if bool_decide (now' < ExpiresAt n) then None
               else Some ErrTokenExpired)
    by (intros now'; by apply (checkNonce_fresh now' n)).
  split; [|split; [lia|split; [|split]]].
  - rewrite He. unfold Second in *. Z.div_mod_to_equations. lia.
  - intros now' H. rewrite Hfresh. by rewrite bool_decide_eq_true_2.
  - intros now' H. rewrite Hfresh. rewrite bool_decide_eq_false_2; [done|lia].
  - intros H. rewrite Hfresh. rewrite bool_decide_eq_false_2; [done|].
    rewrite He. unfold Second in *. Z.div_mod_to_equations. lia.
Qed.

(** An expiry of one millisecond, as the test of the sweep asks for,
    half a second into a second. *)
Lemma New_lifetime_witness :
  exists n,
    newNonce (Ok (repeat 0 16)) (1 * Second + 500 * Millisecond)
             "reset-password" 1 Millisecond = Ok n
    /\ checkNonce (1 * Second + 500 * Millisecond) n "reset-password" 1
       = Some ErrTokenExpired.
Proof.
  destruct (New_lifetime (repeat 0 16) (1 * Second + 500 * Millisecond)
              "reset-password" 1 Millisecond)
    as (n & Hn & _ & _ & _ & _ & Hborn).
  exists n. split; [exact Hn|]. apply Hborn. reflexivity.
Defined.

(** ** New, then Check and Get *)

Lemma find_app_Some {A} (p : A -> bool) (l1 l2 : list A) (x : A) :
  List.find p l1 = Some x -> List.find p (l1 ++ l2) = Some x.
Proof.
  induction l1 as [|a l1 IH]; [done|]. simpl. by destruct (p a).
Qed.

Lemma find_app_None {A} (p : A -> bool) (l1 l2 : list A) :
  (forall x, x ∈ l1 -> p x = false) ->
  List.find p (l1 ++ l2) = List.find p l2.
Proof.
  induction l1 as [|a l1 IH]; [done|]. intros H. simpl.
  rewrite (H a) by (by left). apply IH. intros x Hx. apply H. by right.
Qed.

Lemma find_byToken_map (f : Nonce -> Nonce) (token : string) (rs : list Nonce) :
  (forall r, Token (f r) = Token r) ->
  List.find (sqlx.byToken token) (map f rs)
  = f <$> List.find (sqlx.byToken token) rs.
Proof.
  intros Hf. unfold sqlx.byToken.
  induction rs as [|r rs IH]; [done|]. simpl. rewrite Hf.
  by destruct (bool_decide (Token r = token)).
Qed.

Lemma Token_supersede (action : string) (uid : UUID) (r : Nonce) :
  Token (supersede action uid r) = Token r.
Proof. unfold supersede. by case_bool_decide. Qed.

Lemma healthy_fault_eq (d d' : sqlx.DB) :
  healthy d -> sqlx.fault d' = sqlx.fault d -> healthy d'.
Proof. intros H E i. rewrite E. apply H. Qed.

(** What both services hold after a New that came through: the nonce
    made by newNonce, with the identifier drawn for it. *)
Lemma inmem_New_stored (order : gmap string Nonce -> list (string * Nonce))
    (rawSalt : list Z) (now : Time) (newid : UUID) (action : string)
    (uid : UUID) (expiresIn : Duration) (s : inmem.inMemStore) :
  visits_all order ->
  exists n0 s',
    newNonce (Ok rawSalt) now action uid expiresIn = Ok n0
    /\ inmem.New order (Ok rawSalt) now newid action uid expiresIn s
       = (Ok (set_ID n0 newid), s')
    /\ inmem.nonceMap s' !! Token n0 = Some (set_ID n0 newid).
Proof.
  intros Hperm.
  destruct (newNonce (Ok rawSalt) now action uid expiresIn) as [n0|] eqn:Hn;
    [|done].
  destruct (inmem_New_lookup order _ _ newid _ _ _ s _ Hperm Hn) as (s' & HNew & Hs').
  exists n0, s'. split; [done|]. split; [done|].
  rewrite Hs', lookup_insert_eq. simpl. by rewrite superseded_self.
Qed.

Lemma Check_of_stored (now' : Time) (n : Nonce) (a : string) (u : UUID) :
  IsValid n = true -> IsUsed n = false ->
  checkNonce now' n a u
  = if bool_decide (a = Action n /\ u = UserID n)
    then if bool_decide (now' < ExpiresAt n) then None else Some ErrTokenExpired
    else Some ErrInvalidToken.
Proof.
  intros Hv Hu. case_bool_decide as H.
  - destruct H as [-> ->]. by apply checkNonce_fresh.
  - apply checkNonce_mismatch.
    destruct (decide (a = Action n)); [|by left].
    destruct (decide (u = UserID n)); [|by right]. by destruct H.
Qed.

(** X4. After New, Check of the returned token answers: the
    invalid-token error for any other action or user; for the action
    and user of the call, success before ExpiresAt and token-expired
    from ExpiresAt on. (For the database: when its calls succeed and no
    older row carries the same token.) *)
Theorem New_then_Check (rawSalt : list Z) (now : Time) (newid : UUID)
    (action : string) (uid : UUID) (expiresIn : Duration) :
  (forall order s,
      visits_all order ->
      exists n s',
        inmem.New order (Ok rawSalt) now newid action uid expiresIn s = (Ok n, s')
        /\ forall now' a u,
            (inmem.Check now' (Token n) a u s').1
            = if bool_decide (a = action /\ u = uid)
              then if bool_decide (now' < ExpiresAt n) then None
                   else Some ErrTokenExpired
              else Some ErrInvalidToken)
  /\ (forall d,
      healthy d ->
      exists n d',
        sqlx.New (Ok rawSalt) now newid action uid expiresIn d = (Ok n, d')
        /\ ((forall r, r ∈ sqlx.rows d -> Token r <> Token n) ->
            forall now' a u,
              (sqlx.Check now' (Token n) a u d').1
              = if bool_decide (a = action /\ u = uid)
                then if bool_decide (now' < ExpiresAt n) then None
                     else Some ErrTokenExpired
                else Some ErrInvalidToken)).
Proof.
  split.
  - intros order s Hperm.
    destruct (inmem_New_stored order rawSalt now newid action uid expiresIn s Hperm)
      as (n0 & s' & Hn & HNew & Hl).
    exists (set_ID n0 newid), s'. split; [done|]. intros now' a u.
    pose proof (New_token_passes_checkToken_aux rawSalt now action uid expiresIn n0 Hn)
      as Ht.
    destruct (newNonce_Ok _ _ _ _ _ _ Hn) as (_ & Hu & Ha & Hused & Hv).
    unfold inmem.Check, inmem.getNonce. cbn [Token set_ID]. rewrite Ht.
    cbn [inmem.nonceMap inmem.RLock]. rewrite Hl. cbn [fst].
    rewrite (Check_of_stored now' (set_ID n0 newid)) by done.
    cbn [Action UserID ExpiresAt set_ID]. by rewrite Hu, Ha.
  - intros d Hh.
    destruct (newNonce (Ok rawSalt) now action uid expiresIn) as [n0|] eqn:Hn;
      [|done].
    destruct (sqlx_New_healthy _ _ newid _ _ _ d _ Hh Hn) as (d' & HNew & Hrows & Hf).
    exists (set_ID n0 newid), d'. split; [done|]. intros Hnew now' a u.
    pose proof (New_token_passes_checkToken_aux rawSalt now action uid expiresIn n0 Hn)
      as Ht.
    destruct (newNonce_Ok _ _ _ _ _ _ Hn) as (_ & Hu & Ha & Hused & Hv).
    unfold sqlx.Check, sqlx.db_Get. cbn [Token set_ID] in *. rewrite Ht.
    rewrite (healthy_fault_eq d d' Hh Hf), Hrows.
    unfold sqlx.sqlInvalidate. rewrite map_app, find_app_None.
    + cbn [map List.find]. fold (inmem.superseded (set_ID n0 newid) (set_ID n0 newid)).
      rewrite superseded_self. unfold sqlx.byToken at 1. cbn [Token set_ID].
      rewrite bool_decide_eq_true_2 by done. cbn [fst].
      rewrite (Check_of_stored now' (set_ID n0 newid)) by done.
      cbn [Action UserID ExpiresAt set_ID]. by rewrite Hu, Ha.
    + intros x Hx. apply list_elem_of_fmap in Hx as (r & -> & Hr).
      unfold sqlx.byToken. apply bool_decide_eq_false_2.
      specialize (Hnew r Hr). by destruct (sqlx.superseded _ r).
Qed.

Lemma New_then_Check_witness :
  (exists n s',
     inmem.New map_to_list (Ok (repeat 0 16)) (1 * Second + 5) 9
       "reset-password" 1 Minute inmem.empty = (Ok n, s')
     /\ forall now' a u,
         (inmem.Check now' (Token n) a u s').1
         = if bool_decide (a = "reset-password" /\ u = 1)
           then if bool_decide (now' < ExpiresAt n) then None
                else Some ErrTokenExpired
           else Some ErrInvalidToken)
  /\ (exists n d',
     sqlx.New (Ok (repeat 0 16)) (1 * Second + 5) 9
       "reset-password" 1 Minute (sqlx.mkDB [] 0 (fun _ => false)) = (Ok n, d')).
Proof.
  split.
  - exact (proj1 (New_then_Check (repeat 0 16) (1 * Second + 5) 9
                    "reset-password" 1 Minute)
             map_to_list inmem.empty visits_all_map_to_list).
  - destruct (proj2 (New_then_Check (repeat 0 16) (1 * Second + 5) 9
                       "reset-password" 1 Minute)
                (sqlx.mkDB [] 0 (fun _ => false)) (fun _ => eq_refl))
      as (n & d' & HNew & _).
    exists n, d'. exact HNew.
Defined.

Lemma validFor_supersede (action : string) (uid : UUID) (r : Nonce) :
  sqlx.validFor action uid (supersede action uid r) = false.
Proof.
  unfold sqlx.validFor, supersede. apply bool_decide_eq_false_2.
  case_bool_decide as H; simpl; [by intros (_ & _ & ?)|].
  intros (? & ? & _). by apply H.
Qed.

(** X5. After New, Get for the action and user of the call returns the
    nonce New returned: in the in-memory service when the new identifier
    is fresh and the clock is at least one second past the epoch, in the
    database service when the identifier is fresh and the calls
    succeed. *)
Theorem New_then_Get (rawSalt : list Z) (now : Time) (newid : UUID)
    (action : string) (uid : UUID) (expiresIn : Duration) :
  (forall order s,
      visits_all order ->
      fresh_in_map newid (inmem.nonceMap s) ->
      Second <= now ->
      exists n s',
        inmem.New order (Ok rawSalt) now newid action uid expiresIn s = (Ok n, s')
        /\ (inmem.Get order action uid s').1 = Ok n)
  /\ (forall d,
      healthy d ->
      fresh_in_rows newid (sqlx.rows d) ->
      exists n d',
        sqlx.New (Ok rawSalt) now newid action uid expiresIn d = (Ok n, d')
        /\ (sqlx.Get action uid d').1 = Ok n).
Proof.
  split.
  - intros order s Hperm Hfresh Hnow.
    destruct (inmem_New_invalidates order rawSalt now newid action uid expiresIn
                s Hperm Hfresh)
      as (n & s' & HNew & Hl & Hv & Hu & Ha & Huniq & _).
    exists n, s'. split; [done|].
    assert (Hc : 0 < CreatedAt n).
    { pose proof (inmem_New_result order rawSalt now newid action uid expiresIn s
                    _ eq_refl) as Hr.
      rewrite HNew in Hr. injection Hr as ->. cbn [CreatedAt set_ID].
      unfold Unix. apply Z.div_str_pos. unfold Second in *. lia. }
    destruct (inmem_Get_spec order action uid s' Hperm)
      as [[_ Hle]|(k & n' & HG & Hk & Ha' & Hu' & Hv' & _)].
    + by exists (Token n), n.
    + specialize (Hle _ _ Hl Ha Hu Hv). lia.
    + rewrite HG. f_equal.
      rewrite (Huniq _ _ Hk Hv' Hu' Ha') in Hk. congruence.
  - intros d Hh Hfresh.
    destruct (sqlx_New_invalidates rawSalt now newid action uid expiresIn d
                Hh Hfresh)
      as (n & d' & HNew & Hrows & Hv & Hu & Ha & _).
    exists n, d'. split; [done|].
    assert (Hf : sqlx.fault d' (sqlx.calls d') = false).
    { destruct (newNonce (Ok rawSalt) now action uid expiresIn) as [n0|] eqn:Hn;
        [|done].
      destruct (sqlx_New_healthy _ _ newid _ _ _ d _ Hh Hn) as (d'' & HNew' & _ & Hf).
      rewrite HNew in HNew'. injection HNew' as _ <-. rewrite Hf. apply Hh. }
    pose proof (sqlx_Get_spec action uid d' Hf) as HG.
    rewrite Hrows, find_app_None in HG.
    + simpl in HG. unfold sqlx.validFor in HG.
      by rewrite bool_decide_eq_true_2 in HG.
    + intros x Hx. apply list_elem_of_In, in_map_iff in Hx as (r & <- & _).
      apply validFor_supersede.
Qed.

Lemma New_then_Get_witness :
  (exists n s',
     inmem.New map_to_list (Ok (repeat 0 16)) (2 * Second) 10
       "reset-password" 1 Minute
       (inmem.mkStore {[ testToken := testNonce ]} 0) = (Ok n, s')
     /\ (inmem.Get map_to_list "reset-password" 1 s').1 = Ok n)
  /\ (exists n d',
     sqlx.New (Ok (repeat 0 16)) (2 * Second) 10 "reset-password" 1 Minute
       (sqlx.mkDB [testNonce] 0 (fun _ => false)) = (Ok n, d')
     /\ (sqlx.Get "reset-password" 1 d').1 = Ok n).
Proof.
  split.
  - apply (proj1 (New_then_Get (repeat 0 16) (2 * Second) 10
                    "reset-password" 1 Minute)
             map_to_list (inmem.mkStore {[ testToken := testNonce ]} 0)
             visits_all_map_to_list).
    + intros k v Hk. cbn [inmem.nonceMap] in Hk.
      apply lookup_singleton_Some in Hk as [_ <-]. discriminate.
    + discriminate.
  - apply (proj2 (New_then_Get (repeat 0 16) (2 * Second) 10
                    "reset-password" 1 Minute)
             (sqlx.mkDB [testNonce] 0 (fun _ => false))).
    + intros i. reflexivity.
    + intros r Hr. apply list_elem_of_singleton in Hr. subst r. discriminate.
Defined.

Lemma sqlx_New_after (rawSalt : list Z) (now : Time) (newid : UUID)
    (action : string) (uid : UUID) (expiresIn : Duration) (d : sqlx.DB) :
  healthy d ->
  fresh_in_rows newid (sqlx.rows d) ->
  exists n d',
    sqlx.New (Ok rawSalt) now newid action uid expiresIn d = (Ok n, d')
    /\ sqlx.rows d' = map (supersede action uid) (sqlx.rows d) ++ [n]
    /\ healthy d'.
Proof.
  intros Hh Hfresh.
  destruct (sqlx_New_invalidates rawSalt now newid action uid expiresIn d Hh Hfresh)
    as (n & d' & HNew & Hrows & _).
  exists n, d'. split; [done|]. split; [done|].
  destruct (newNonce (Ok rawSalt) now action uid expiresIn) as [n0|] eqn:Hn;
    [|done].
  destruct (sqlx_New_healthy _ _ newid _ _ _ d _ Hh Hn) as (d'' & HNew' & _ & Hf).
  rewrite HNew in HNew'. injection HNew' as _ <-.
  by apply (healthy_fault_eq d).
Qed.

Lemma checkNonce_invalid (now' : Time) (v : Nonce) (action : string) (uid : UUID) :
  checkNonce now' (set_IsValid v false) action uid = Some ErrInvalidToken.
Proof. apply (checkNonce_in_order now' (set_IsValid v false)). by left. Qed.

Lemma supersede_pair (v : Nonce) :
  supersede (Action v) (UserID v) v = set_IsValid v false.
Proof. unfold supersede. by rewrite bool_decide_eq_true_2. Qed.

(** X6. New supersedes: a record of the same user and action that was
    stored before, under another token, is answered by Check with the
    invalid-token error from then on, at any time, whether or not it was
    used or has expired. The identifier drawn for the new record is one
    that no stored record has. *)
Theorem New_supersedes (rawSalt : list Z) (now : Time) (newid : UUID)
    (action : string) (uid : UUID) (expiresIn : Duration) :
  (forall order s,
      visits_all order ->
      fresh_in_map newid (inmem.nonceMap s) ->
      exists n s',
        inmem.New order (Ok rawSalt) now newid action uid expiresIn s = (Ok n, s')
        /\ forall token v now',
            inmem.nonceMap s !! token = Some v -> token <> Token n ->
            checkToken token = None ->
            UserID v = uid -> Action v = action ->
            (inmem.Check now' token action uid s').1 = Some ErrInvalidToken)
  /\ (forall d,
      healthy d ->
      fresh_in_rows newid (sqlx.rows d) ->
      exists n d',
        sqlx.New (Ok rawSalt) now newid action uid expiresIn d = (Ok n, d')
        /\ forall token r now',
            List.find (sqlx.byToken token) (sqlx.rows d) = Some r ->
            checkToken token = None ->
            UserID r = uid -> Action r = action ->
            (sqlx.Check now' token action uid d').1 = Some ErrInvalidToken).
Proof.
  split.
  - intros order s Hperm Hfresh.
    destruct (inmem_New_invalidates order rawSalt now newid action uid expiresIn
                s Hperm Hfresh)
      as (n & s' & HNew & _ & _ & _ & _ & _ & Hother & _).
    exists n, s'. split; [done|].
    intros token v now' Hv Hne Ht Hu Ha.
    unfold inmem.Check, inmem.getNonce. rewrite Ht.
    cbn [inmem.nonceMap inmem.RLock]. rewrite (Hother _ _ Hne Hv).
    subst uid action. rewrite supersede_pair. apply checkNonce_invalid.
  - intros d Hh Hfresh.
    destruct (sqlx_New_after rawSalt now newid action uid expiresIn d Hh Hfresh)
      as (n & d' & HNew & Hrows & Hh').
    exists n, d'. split; [done|].
    intros token r now' Hr Ht Hu Ha.
    unfold sqlx.Check, sqlx.db_Get. rewrite Ht, Hh', Hrows.
    erewrite find_app_Some;
      [|rewrite find_byToken_map by apply Token_supersede; by rewrite Hr].
    subst uid action. rewrite supersede_pair. apply checkNonce_invalid.
Qed.

Lemma New_supersedes_witness :
  (exists n s',
     inmem.New map_to_list (Ok (repeat 0 16)) (2 * Second) 10
       "reset-password" 1 Minute
       (inmem.mkStore {[ testToken := testNonce ]} 0) = (Ok n, s'))
  /\ (exists n d',
     sqlx.New (Ok (repeat 0 16)) (2 * Second) 10 "reset-password" 1 Minute
       (sqlx.mkDB [testNonce] 0 (fun _ => false)) = (Ok n, d')
     /\ (sqlx.Check (3 * Second) testToken "reset-password" 1 d').1
        = Some ErrInvalidToken).
Proof.
  split.
  - destruct (proj1 (New_supersedes (repeat 0 16) (2 * Second) 10
                       "reset-password" 1 Minute)
                map_to_list (inmem.mkStore {[ testToken := testNonce ]} 0)
                visits_all_map_to_list) as (n & s' & HNew & _).
    + intros k v Hk. cbn [inmem.nonceMap] in Hk.
      apply lookup_singleton_Some in Hk as [_ <-]. discriminate.
    + exists n, s'. exact HNew.
  - destruct (proj2 (New_supersedes (repeat 0 16) (2 * Second) 10
                       "reset-password" 1 Minute)
                (sqlx.mkDB [testNonce] 0 (fun _ => false)))
      as (n & d' & HNew & Hold).
    + intros i. reflexivity.
    + intros r Hr. apply list_elem_of_singleton in Hr. subst r. discriminate.
    + exists n, d'. split; [exact HNew|].
      apply (Hold testToken testNonce (3 * Second)).
      * reflexivity.
      * vm_compute. reflexivity.
      * reflexivity.
      * reflexivity.
Defined.

(** ** Consume, and Check before it *)

Lemma checkNonce_None (now : Time) (n : Nonce) (a : string) (u : UUID) :
  checkNonce now n a u = None ->
  IsValid n = true /\ Action n = a /\ UserID n = u
  /\ IsUsed n = false /\ now < ExpiresAt n.
Proof.
  unfold checkNonce, After. repeat case_bool_decide; try done. intros _.
  destruct (IsValid n) eqn:Ev; [|exfalso; tauto].
  destruct (decide (Action n = a)); [|exfalso; tauto].
  destruct (decide (UserID n = u)); [|exfalso; tauto].
  destruct (IsUsed n); [done|].
  destruct (now <? ExpiresAt n) eqn:E; [|done].
  apply Z.ltb_lt in E. done.
Qed.

Lemma checkNonce_used (now : Time) (n : Nonce) (a : string) (u : UUID) :
  IsUsed n = true ->
  checkNonce now n a u
  = if bool_decide (IsValid n = true /\ Action n = a /\ UserID n = u)
    then Some ErrTokenUsed else Some ErrInvalidToken.
Proof.
  intros Hu. destruct (checkNonce_in_order now n a u) as [Hinv Hok].
  case_bool_decide as H.
  - destruct H as (Hv & Ha & Hu'). by apply (Hok Hv Ha Hu').
  - apply Hinv. destruct (IsValid n); [|by left].
    destruct (decide (Action n = a)); [|by right; left].
    destruct (decide (UserID n = u)); [|by right; right]. by destruct H.
Qed.

Ltac sqlx_unfold :=
  unfold sqlx.CheckThenConsume, sqlx.Check, sqlx.Consume, sqlx.Get,
    sqlx.New, sqlx.saveNonce, sqlx.sweep,
    sqlx.db_Get, sqlx.Beginx, sqlx.Exec, sqlx.Commit, sqlx.Rollback.

Lemma sqlx_Consume_fault (token : string) (d : sqlx.DB) :
  sqlx.fault (sqlx.Consume token d).2 = sqlx.fault d.
Proof. sqlx_unfold. repeat (case_match; simpl in *; simplify_eq); done. Qed.

Lemma inmem_Consume_Ok (newid : UUID) (token : string) (s s' : inmem.inMemStore)
    (n' : Nonce) :
  inmem.Consume newid token s = (Ok n', s') ->
  exists n,
    checkToken token = None
    /\ inmem.nonceMap s !! token = Some n /\ IsUsed n = false
    /\ n' = set_IsUsed (if bool_decide (ID n = uuid.Nil)
                        then set_ID n newid else n) true
    /\ inmem.nonceMap s' = <[Token n := n']> (inmem.nonceMap s).
Proof.
  intros HC.
  destruct (checkToken token) as [e|] eqn:Ht.
  { unfold inmem.Consume in HC. by rewrite Ht in HC. }
  pose proof (inmem_Consume_spec newid token s Ht) as H.
  destruct (inmem.nonceMap s !! token) as [n|].
  - destruct (IsUsed n) eqn:Eu.
    + destruct H as (s1 & H & _). congruence.
    + destruct H as (n1 & s1 & H & -> & Hm). rewrite HC in H.
      injection H as -> ->. by exists n.
  - destruct H as (s1 & H & _). congruence.
Qed.

Lemma sqlx_Consume_Ok (token : string) (d d' : sqlx.DB) (n' : Nonce) :
  healthy d ->
  sqlx.Consume token d = (Ok n', d') ->
  exists n,
    checkToken token = None
    /\ List.find (sqlx.byToken token) (sqlx.rows d) = Some n
    /\ IsUsed n = false /\ n' = set_IsUsed n true
    /\ sqlx.rows d' = sqlx.sqlMarkUsed token (sqlx.rows d)
    /\ healthy d'.
Proof.
  intros Hh HC.
  assert (Hh' : healthy d').
  { apply (healthy_fault_eq d); [done|].
    pose proof (sqlx_Consume_fault token d) as Hf. by rewrite HC in Hf. }
  destruct (checkToken token) as [e|] eqn:Ht.
  { unfold sqlx.Consume in HC. by rewrite Ht in HC. }
  pose proof (sqlx_Consume_spec token d Hh Ht) as H.
  destruct (find _ _) as [n|].
  - destruct (IsUsed n) eqn:Eu.
    + destruct H as (d1 & H & _). congruence.
    + destruct H as (d1 & H & Hr). rewrite HC in H.
      injection H as -> ->. by exists n.
  - destruct H as (d1 & H & _). congruence.
Qed.

(** X7. A token is consumed once: after a Consume that succeeded, a
    second Consume of the token answers the used-token error, and Check
    answers the used-token error when the record is valid and bound to
    the action and user asked for, and the invalid-token error
    otherwise; never success and never token-expired, whatever the
    clock. (In-memory: for a store that keeps every record under its own
    token; database: when the calls succeed.) *)
Theorem Consume_only_once (token : string) (n' : Nonce) :
  (forall newid s s',
      keyed_by_token (inmem.nonceMap s) ->
      inmem.Consume newid token s = (Ok n', s') ->
      (forall newid', (inmem.Consume newid' token s').1 = Err ErrTokenUsed)
      /\ forall now a u,
          (inmem.Check now token a u s').1
          = if bool_decide (IsValid n' = true /\ Action n' = a /\ UserID n' = u)
            then Some ErrTokenUsed else Some ErrInvalidToken)
  /\ (forall d d',
      healthy d ->
      sqlx.Consume token d = (Ok n', d') ->
      (sqlx.Consume token d').1 = Err ErrTokenUsed
      /\ forall now a u,
          (sqlx.Check now token a u d').1
          = if bool_decide (IsValid n' = true /\ Action n' = a /\ UserID n' = u)
            then Some ErrTokenUsed else Some ErrInvalidToken).
Proof.
  split.
  - intros newid s s' Hk HC.
    destruct (inmem_Consume_Ok _ _ _ _ _ HC) as (n & Ht & Hn & Hu & Hn' & Hm).
    assert (Hl : inmem.nonceMap s' !! token = Some n').
    { rewrite Hm, (Hk _ _ Hn). apply lookup_insert_eq. }
    assert (Hused : IsUsed n' = true) by (by subst n').
    split.
    + intros newid'. unfold inmem.Consume, inmem.getNonce. rewrite Ht.
      cbn [inmem.nonceMap inmem.RLock]. rewrite Hl.
      by rewrite bool_decide_eq_true_2.
    + intros now a u. unfold inmem.Check, inmem.getNonce. rewrite Ht.
      cbn [inmem.nonceMap inmem.RLock]. rewrite Hl. cbn [fst].
      by apply checkNonce_used.
  - intros d d' Hh HC.
    destruct (sqlx_Consume_Ok _ _ _ _ Hh HC) as (n & Ht & Hn & Hu & Hn' & Hr & Hh').
    assert (Hl : List.find (sqlx.byToken token) (sqlx.rows d') = Some n').
    { rewrite Hr, Hn'. by apply find_sqlMarkUsed. }
    assert (Hused : IsUsed n' = true) by (by subst n').
    split.
    + unfold sqlx.Consume, sqlx.db_Get. rewrite Ht, Hh', Hl.
      by rewrite bool_decide_eq_true_2.
    + intros now a u. unfold sqlx.Check, sqlx.db_Get. rewrite Ht, Hh', Hl.
      cbn [fst]. by apply checkNonce_used.
Qed.

Lemma Consume_only_once_witness :
  (inmem.Consume 1 testToken
     (inmem.Consume 0 testToken
        (inmem.mkStore {[ testToken := testNonce ]} 0)).2).1
  = Err ErrTokenUsed
  /\ (sqlx.Consume testToken
        (sqlx.mkDB [set_IsUsed testNonce true] 4 (fun _ => false))).1
     = Err ErrTokenUsed.
Proof.
  split.
  - assert (HC : inmem.Consume 0 testToken
                   (inmem.mkStore {[ testToken := testNonce ]} 0)
                 = (Ok (set_IsUsed testNonce true),
                    (inmem.Consume 0 testToken
                       (inmem.mkStore {[ testToken := testNonce ]} 0)).2))
      by (vm_compute; reflexivity).
    assert (Hk : keyed_by_token
                   (inmem.nonceMap (inmem.mkStore {[ testToken := testNonce ]} 0))).
    { intros k v H. cbn [inmem.nonceMap] in H.
      apply lookup_singleton_Some in H as [<- <-]. reflexivity. }
    exact (proj1 (proj1 (Consume_only_once testToken (set_IsUsed testNonce true))
                    0 _ _ Hk HC) 1).
  - apply (proj2 (Consume_only_once testToken (set_IsUsed testNonce true))
             (sqlx.mkDB [testNonce] 0 (fun _ => false))
             (sqlx.mkDB [set_IsUsed testNonce true] 4 (fun _ => false))).
    + intros i. reflexivity.
    + vm_compute. reflexivity.
Defined.

Lemma inmem_Check_result (now : Time) (token action : string) (uid : UUID)
    (s : inmem.inMemStore) :
  inmem.Check now token action uid s
  = match checkToken token with
    | Some e => (Some e, s)
    | None =>
        match inmem.nonceMap s !! token with
        | Some n => (checkNonce now n action uid, inmem.RLock s)
        | None => (Some ErrTokenNotFound, inmem.RLock s)
        end
    end.
Proof.
  unfold inmem.Check, inmem.getNonce. destruct (checkToken token); [done|].
  cbn [inmem.nonceMap inmem.RLock]. by destruct (_ !! token).
Qed.



(** ** Errors *)

Lemma inmem_Consume_Err (newid : UUID) (token : string) (s : inmem.inMemStore)
    (e : error) :
  (inmem.Consume newid token s).1 = Err e ->
  inmem.nonceMap (inmem.Consume newid token s).2 = inmem.nonceMap s.
Proof.
  unfold inmem.Consume, inmem.getNonce.
  destruct (checkToken token); [done|]. cbn [inmem.nonceMap inmem.RLock].
  destruct (inmem.nonceMap s !! token) as [n|]; [|done].
  case_bool_decide; [done|]. unfold inmem.saveNonce. simpl. done.
Qed.

Lemma sqlx_Consume_Err (token : string) (d : sqlx.DB) (e : error) :
  (sqlx.Consume token d).1 = Err e ->
  sqlx.rows (sqlx.Consume token d).2 = sqlx.rows d.
Proof. sqlx_unfold. repeat (case_match; simpl in *; simplify_eq); done. Qed.

Lemma Check_mutates_nothing_aux (now : Time) (token action : string) (uid : UUID) :
  (forall s, inmem.nonceMap (inmem.Check now token action uid s).2 = inmem.nonceMap s)
  /\ (forall d, sqlx.rows (sqlx.Check now token action uid d).2 = sqlx.rows d).
Proof.
  split.
  - intros s. rewrite inmem_Check_result.
    destruct (checkToken token); [done|]. by destruct (_ !! token).
  - intros d. sqlx_unfold. repeat (case_match; simpl in *; simplify_eq); done.
Qed.

(** X9. An operation that answers an error leaves the records as they
    were: New, Consume and CheckThenConsume of the in-memory service,
    and Consume, CheckThenConsume and saveNonce of the database service,
    whichever of its calls fail. Get changes no record in either
    service, whatever it answers. *)
Theorem errors_leave_the_records :
  (forall order rnd now newid action uid expiresIn s e,
      (inmem.New order rnd now newid action uid expiresIn s).1 = Err e ->
      (inmem.New order rnd now newid action uid expiresIn s).2 = s)
  /\ (forall newid token s e,
      (inmem.Consume newid token s).1 = Err e ->
      inmem.nonceMap (inmem.Consume newid token s).2 = inmem.nonceMap s)
  /\ (forall now newid token action uid s e,
      (inmem.CheckThenConsume now newid token action uid s).1 = Err e ->
      inmem.nonceMap (inmem.CheckThenConsume now newid token action uid s).2
      = inmem.nonceMap s)
  /\ (forall order action uid s,
      inmem.nonceMap (inmem.Get order action uid s).2 = inmem.nonceMap s)
  /\ (forall token d e,
      (sqlx.Consume token d).1 = Err e ->
      sqlx.rows (sqlx.Consume token d).2 = sqlx.rows d)
  /\ (forall now token action uid d e,
      (sqlx.CheckThenConsume now token action uid d).1 = Err e ->
      sqlx.rows (sqlx.CheckThenConsume now token action uid d).2 = sqlx.rows d)
  /\ (forall newid n d e,
      (sqlx.saveNonce newid n d).1 = Err e ->
      sqlx.rows (sqlx.saveNonce newid n d).2 = sqlx.rows d)
  /\ (forall action uid d,
      sqlx.rows (sqlx.Get action uid d).2 = sqlx.rows d).
Proof.
  repeat split.
  - intros order rnd now newid action uid expiresIn s e.
    unfold inmem.New. destruct rnd; simpl; [|done].
    unfold inmem.saveNonce. simpl. done.
  - apply inmem_Consume_Err.
  - intros now newid token action uid s e.
    unfold inmem.CheckThenConsume. rewrite inmem_Check_result.
    destruct (checkToken token) as [e'|] eqn:Ht; [done|].
    destruct (inmem.nonceMap s !! token) as [n|]; [|done].
    destruct (checkNonce now n action uid); [done|].
    intros H. by rewrite (inmem_Consume_Err _ _ _ _ H).
  - intros order action uid s. unfold inmem.Get.
    repeat case_bool_decide; done.
  - apply sqlx_Consume_Err.
  - intros now token action uid d e. unfold sqlx.CheckThenConsume.
    destruct (sqlx.Check now token action uid d) as [[e'|] d1] eqn:HC.
    + intros _. pose proof (proj2 (Check_mutates_nothing_aux now token action uid) d) as H.
      by rewrite HC in H.
    + pose proof (proj2 (Check_mutates_nothing_aux now token action uid) d) as H.
      rewrite HC in H. cbn [snd] in H.
      destruct (sqlx.Consume token d1) as [[n|e'] d2] eqn:HC2; [done|].
      intros _. pose proof (sqlx_Consume_Err token d1 e') as H2.
      rewrite HC2 in H2. cbn [fst snd] in *. rewrite H2; done.
  - intros newid n d e. sqlx_unfold.
    repeat (case_match; simpl in *; simplify_eq); done.
  - intros action uid d. sqlx_unfold.
    repeat (case_match; simpl in *; simplify_eq); done.
Qed.

(** A Consume whose Commit fails (the fourth call to the database). *)
Lemma errors_leave_the_records_witness :
  (sqlx.Consume testToken
     (sqlx.mkDB [testNonce] 0 (fun i => Nat.eqb i 3))).1 = Err ErrDB
  /\ sqlx.rows (sqlx.Consume testToken
                  (sqlx.mkDB [testNonce] 0 (fun i => Nat.eqb i 3))).2
     = [testNonce].
Proof.
  assert (H : (sqlx.Consume testToken
                 (sqlx.mkDB [testNonce] 0 (fun i => Nat.eqb i 3))).1 = Err ErrDB)
    by (vm_compute; reflexivity).
  split; [exact H|].
  exact (proj1 (proj2 (proj2 (proj2 (proj2 errors_leave_the_records))))
           testToken (sqlx.mkDB [testNonce] 0 (fun i => Nat.eqb i 3)) ErrDB H).
Defined.

Lemma checkNonce_errors (now : Time) (n : Nonce) (a : string) (u : UUID) (e : error) :
  checkNonce now n a u = Some e ->
  e = ErrInvalidToken \/ e = ErrTokenUsed \/ e = ErrTokenExpired.
Proof.
  unfold checkNonce. repeat case_bool_decide; intros [= <-]; tauto.
Qed.

Lemma checkToken_errors (token : string) (e : error) :
  checkToken token = Some e -> e = ErrNoToken \/ e = ErrInvalidToken.
Proof.
  unfold checkToken. repeat case_match; intros [= <-]; tauto.
Qed.

(** X10. In the database service a missing row is reported as
    token-not-found: Check and Consume of a well-shaped token that no
    row carries, and Get for a pair without a valid row, answer
    token-not-found when the query succeeds, and pass the error of the
    database on when it fails. [sql.ErrNoRows] itself never reaches the
    caller of Check, Consume, CheckThenConsume or Get. *)
Theorem missing_row_is_not_found (now : Time) (token action : string) (uid : UUID)
    (d : sqlx.DB) :
  (checkToken token = None ->
   sqlx.fault d (sqlx.calls d) = false ->
   List.find (sqlx.byToken token) (sqlx.rows d) = None ->
   (sqlx.Check now token action uid d).1 = Some ErrTokenNotFound
   /\ (sqlx.Consume token d).1 = Err ErrTokenNotFound
   /\ (sqlx.CheckThenConsume now token action uid d).1 = Err ErrTokenNotFound)
  /\ (sqlx.fault d (sqlx.calls d) = false ->
      List.find (sqlx.validFor action uid) (sqlx.rows d) = None ->
      (sqlx.Get action uid d).1 = Err ErrTokenNotFound)
  /\ (checkToken token = None ->
      sqlx.fault d (sqlx.calls d) = true ->
      (sqlx.Check now token action uid d).1 = Some ErrDB
      /\ (sqlx.Consume token d).1 = Err ErrDB
      /\ (sqlx.CheckThenConsume now token action uid d).1 = Err ErrDB
      /\ (sqlx.Get action uid d).1 = Err ErrDB)
  /\ ((sqlx.Check now token action uid d).1 <> Some ErrNoRows
      /\ (sqlx.Consume token d).1 <> Err ErrNoRows
      /\ (sqlx.CheckThenConsume now token action uid d).1 <> Err ErrNoRows
      /\ (sqlx.Get action uid d).1 <> Err ErrNoRows).
Proof.
  assert (HCheck : (sqlx.Check now token action uid d).1 <> Some ErrNoRows).
  { unfold sqlx.Check, sqlx.db_Get.
    destruct (checkToken token) as [e|] eqn:Ht.
    { intros [= ->]. by destruct (checkToken_errors _ _ Ht). }
    destruct (sqlx.fault d (sqlx.calls d)); [done|].
    destruct (find _ _) as [n|]; [|done]. cbn [fst]. intros H.
    destruct (checkNonce_errors _ _ _ _ _ H) as [?|[?|?]]; done. }
  assert (HConsume : forall d0, (sqlx.Consume token d0).1 <> Err ErrNoRows).
  { intros d0. sqlx_unfold.
    destruct (checkToken token) as [e|] eqn:Ht.
    { intros [= ->]. by destruct (checkToken_errors _ _ Ht). }
    repeat (case_match; simpl in *; simplify_eq); done. }
  split; [|split; [|split]].
  - intros Ht Hf Hn. unfold sqlx.CheckThenConsume, sqlx.Check, sqlx.Consume,
      sqlx.db_Get. by rewrite Ht, Hf, Hn.
  - intros Hf Hn. unfold sqlx.Get, sqlx.db_Get. by rewrite Hf, Hn.
  - intros Ht Hf. unfold sqlx.CheckThenConsume, sqlx.Check, sqlx.Consume,
      sqlx.Get, sqlx.db_Get. by rewrite Ht, Hf.
  - split; [done|]. split; [done|]. split.
    + unfold sqlx.CheckThenConsume.
      destruct (sqlx.Check now token action uid d) as [[e|] d1] eqn:HC.
      * cbn [fst] in *. congruence.
      * specialize (HConsume d1). by destruct (sqlx.Consume token d1) as [[?|?] ?].
    + sqlx_unfold. repeat (case_match; simpl in *; simplify_eq); done.
Qed.

Lemma missing_row_is_not_found_witness :
  (sqlx.Check 0 testToken "reset-password" 1
     (sqlx.mkDB [] 0 (fun _ => false))).1 = Some ErrTokenNotFound
  /\ (sqlx.Get "reset-password" 1 (sqlx.mkDB [] 0 (fun _ => true))).1
     = Err ErrDB.
Proof.
  split.
  - apply (proj1 (missing_row_is_not_found 0 testToken "reset-password" 1
                    (sqlx.mkDB [] 0 (fun _ => false)))).
    + vm_compute. reflexivity.
    + reflexivity.
    + reflexivity.
  - apply (proj1 (proj2 (proj2 (missing_row_is_not_found 0 testToken
                                  "reset-password" 1
                                  (sqlx.mkDB [] 0 (fun _ => true)))))).
    + vm_compute. reflexivity.
    + reflexivity.
Defined.

(** X11. New of the database service is two transactions. When the
    first, the insert, commits and a call of the second, the
    invalidation, fails, New answers the error of the database, yet the
    new record is stored, valid, and the older rows are as they were:
    an older valid record of the pair stays valid beside it. *)
Theorem sqlx_New_insert_survives (rawSalt : list Z) (now : Time) (newid : UUID)
    (action : string) (uid : UUID) (expiresIn : Duration) (d : sqlx.DB) :
  sqlx.fault d (sqlx.calls d) = false ->
  sqlx.fault d (1 + sqlx.calls d)%nat = false ->
  sqlx.fault d (2 + sqlx.calls d)%nat = false ->
  sqlx.fault d (3 + sqlx.calls d)%nat = true
  \/ sqlx.fault d (4 + sqlx.calls d)%nat = true
  \/ sqlx.fault d (5 + sqlx.calls d)%nat = true ->
  exists n,
    (sqlx.New (Ok rawSalt) now newid action uid expiresIn d).1 = Err ErrDB
    /\ sqlx.rows (sqlx.New (Ok rawSalt) now newid action uid expiresIn d).2
       = sqlx.rows d ++ [n]
    /\ ID n = newid /\ UserID n = uid /\ Action n = action /\ IsValid n = true.
Proof.
  intros H0 H1 H2 H345. simpl in *.
  unfold sqlx.New, newNonce, sqlx.saveNonce.
  rewrite bool_decide_eq_true_2 by done.
  unfold sqlx.Beginx, sqlx.Exec, sqlx.Commit, sqlx.Rollback. simpl.
  rewrite H0. simpl. rewrite H1. simpl. rewrite H2. simpl.
  eexists.
  destruct (sqlx.fault d (S (S (S (sqlx.calls d))))) eqn:E3; simpl;
    [split; [reflexivity|split; [reflexivity|done]]|].
  destruct (sqlx.fault d (S (S (S (S (sqlx.calls d)))))) eqn:E4; simpl;
    [split; [reflexivity|split; [reflexivity|done]]|].
  destruct (sqlx.fault d (S (S (S (S (S (sqlx.calls d))))))) eqn:E5; simpl;
    [split; [reflexivity|split; [reflexivity|done]]|].
  exfalso. destruct H345 as [?|[?|?]]; congruence.
Qed.

(** A second New for the pair of [testNonce] whose invalidating
    statement fails. *)
Lemma sqlx_New_insert_survives_witness :
  exists n,
    (sqlx.New (Ok (repeat 0 16)) (2 * Second) 10 "reset-password" 1 Minute
       (sqlx.mkDB [testNonce] 0 (fun i => Nat.eqb i 4))).1 = Err ErrDB
    /\ sqlx.rows (sqlx.New (Ok (repeat 0 16)) (2 * Second) 10 "reset-password"
                    1 Minute (sqlx.mkDB [testNonce] 0 (fun i => Nat.eqb i 4))).2
       = [testNonce; n]
    /\ IsValid n = true.
Proof.
  destruct (sqlx_New_insert_survives (repeat 0 16) (2 * Second) 10
              "reset-password" 1 Minute
              (sqlx.mkDB [testNonce] 0 (fun i => Nat.eqb i 4))
              eq_refl eq_refl eq_refl (or_intror (or_introl eq_refl)))
    as (n & He & Hr & _ & _ & _ & Hv).
  exists n. split; [exact He|]. split; [exact Hr|exact Hv].
Defined.

(** X12. A sweep of the database service under failing calls: when
    [Beginx] fails the code goes on with a nil transaction and panics;
    when the DELETE or the Commit fails the rows are as they were and
    the sweep returns; when all three calls succeed the expired rows are
    gone. *)
Theorem sqlx_sweep_failures (now : Time) (d : sqlx.DB) :
  (sqlx.fault d (sqlx.calls d) = true -> sqlx.sweep now d = None)
  /\ (sqlx.fault d (sqlx.calls d) = false ->
      exists d',
        sqlx.sweep now d = Some d'
        /\ sqlx.rows d'
           = if sqlx.fault d (1 + sqlx.calls d)%nat
                || sqlx.fault d (2 + sqlx.calls d)%nat
             then sqlx.rows d
             else sqlx.sqlDelete now (sqlx.rows d)).
Proof.
  split.
  - intros H. unfold sqlx.sweep, sqlx.Beginx. by rewrite H.
  - intros H. unfold sqlx.sweep, sqlx.Beginx, sqlx.Exec, sqlx.Commit,
      sqlx.Rollback. rewrite H. simpl.
    destruct (sqlx.fault d (S (sqlx.calls d))) eqn:E1; simpl; [by eexists|].
    destruct (sqlx.fault d (S (S (sqlx.calls d)))) eqn:E2; simpl; by eexists.
Qed.

Lemma sqlx_sweep_failures_witness :
  sqlx.sweep (62 * Second) (sqlx.mkDB [testNonce] 0 (fun _ => true)) = None
  /\ exists d',
      sqlx.sweep (62 * Second) (sqlx.mkDB [testNonce] 0 (fun i => Nat.eqb i 1))
      = Some d'
      /\ sqlx.rows d' = [testNonce].
Proof.
  split.
  - exact (proj1 (sqlx_sweep_failures (62 * Second)
                    (sqlx.mkDB [testNonce] 0 (fun _ => true))) eq_refl).
  - exact (proj2 (sqlx_sweep_failures (62 * Second)
                    (sqlx.mkDB [testNonce] 0 (fun i => Nat.eqb i 1))) eq_refl).
Defined.

(** ** What every store of the in-memory service satisfies *)

Lemma store_ok_submap (m m' : gmap string Nonce) :
  (forall k v, m' !! k = Some v -> m !! k = Some v) ->
  store_ok m -> store_ok m'.
Proof.
  intros Hsub [Hk Ho]. split.
  - intros k v H. by apply Hk, Hsub.
  - intros k1 k2 v1 v2 H1 H2. apply Ho; by apply Hsub.
Qed.

Lemma store_ok_consumed (m : gmap string Nonce) (n n' : Nonce) :
  m !! Token n = Some n -> consumed n n' ->
  store_ok m -> store_ok (<[Token n := n']> m).
Proof.
  intros Hn (_ & Hu & Ht & Ha & _ & Hv & _) [Hk Ho].
  assert (Hback : forall k v, <[Token n := n']> m !! k = Some v ->
            exists v0, m !! k = Some v0 /\ Token v = Token v0
                       /\ IsValid v = IsValid v0 /\ UserID v = UserID v0
                       /\ Action v = Action v0).
  { intros k v H. apply lookup_insert_Some in H as [[<- <-]|[_ H]].
    - exists n. done.
    - exists v. done. }
  split.
  - intros k v H. destruct (Hback _ _ H) as (v0 & H0 & -> & _). by apply Hk.
  - intros k1 k2 v1 v2 H1 H2 Hv1 Hv2 Huu Haa.
    destruct (Hback _ _ H1) as (w1 & Hw1 & _ & E1 & E2 & E3).
    destruct (Hback _ _ H2) as (w2 & Hw2 & _ & F1 & F2 & F3).
    apply (Ho k1 k2 w1 w2); congruence.
Qed.

Lemma inmem_Consume_map (newid : UUID) (token : string) (s : inmem.inMemStore) :
  inmem.nonceMap (inmem.Consume newid token s).2 = inmem.nonceMap s
  \/ exists n n',
      inmem.nonceMap s !! token = Some n /\ consumed n n'
      /\ inmem.nonceMap (inmem.Consume newid token s).2
         = <[Token n := n']> (inmem.nonceMap s).
Proof.
  destruct (inmem.Consume newid token s) as [[n'|e] s'] eqn:HC.
  - right. destruct (inmem_Consume_Ok _ _ _ _ _ HC) as (n & _ & Hn & _ & -> & Hm).
    eexists n, _. split; [done|]. split; [|done].
    unfold consumed. case_bool_decide; simpl; repeat split; done.
  - left. pose proof (inmem_Consume_Err newid token s e) as H.
    rewrite HC in H. by apply H.
Qed.

Lemma store_ok_Consume (newid : UUID) (token : string) (s : inmem.inMemStore) :
  store_ok (inmem.nonceMap s) ->
  store_ok (inmem.nonceMap (inmem.Consume newid token s).2).
Proof.
  intros Hok.
  destruct (inmem_Consume_map newid token s) as [->|(n & n' & Hn & Hc & ->)];
    [done|].
  apply store_ok_consumed; [|done|done].
  by rewrite (proj1 Hok _ _ Hn).
Qed.

Lemma store_ok_New (order : gmap string Nonce -> list (string * Nonce))
    (rnd : result (list Z)) (now : Time) (newid : UUID) (action : string)
    (uid : UUID) (expiresIn : Duration) (s : inmem.inMemStore) :
  visits_all order ->
  fresh_in_map newid (inmem.nonceMap s) ->
  store_ok (inmem.nonceMap s) ->
  store_ok (inmem.nonceMap (inmem.New order rnd now newid action uid expiresIn s).2).
Proof.
  intros Hperm Hfresh [Hk Ho].
  destruct rnd as [rawSalt|e]; [|done].
  destruct (inmem_New_invalidates order rawSalt now newid action uid expiresIn
              s Hperm Hfresh)
    as (n & s' & HNew & Hl & _ & _ & _ & _ & Hother & Hinv).
  rewrite HNew. cbn [snd]. split; [|by apply Hinv].
  intros k v Hkv.
  destruct (decide (k = Token n)) as [->|Hne]; [congruence|].
  destruct (newNonce (Ok rawSalt) now action uid expiresIn) as [n0|] eqn:Hn;
    [|done].
  destruct (inmem_New_lookup order _ _ newid _ _ _ s _ Hperm Hn) as (s'' & HNew' & Hs').
  rewrite HNew in HNew'. injection HNew' as -> <-.
  rewrite Hs', lookup_insert_ne in Hkv by done.
  destruct (inmem.nonceMap s !! k) as [v0|] eqn:E; [|done].
  simpl in Hkv. injection Hkv as <-.
  rewrite <- (Hk _ _ E). by destruct (inmem.superseded _ v0).
Qed.

(** X13. Every store the in-memory service can reach from the empty one,
    by any sequence of New, Check, Consume, CheckThenConsume, Get and
    sweeps, keeps each record under its own token and holds at most one
    valid record for each pair of user and action, as long as each New
    draws an identifier that no stored record has. *)
Theorem reachable_store_ok (order : gmap string Nonce -> list (string * Nonce))
    (s : inmem.inMemStore) :
  visits_all order ->
  reachable order s ->
  keyed_by_token (inmem.nonceMap s) /\ at_most_one_valid (inmem.nonceMap s).
Proof.
  intros Hperm Hr. change (store_ok (inmem.nonceMap s)).
  induction Hr as [|s c _ IH Hadm].
  - split.
    + intros k v H. cbn [inmem.nonceMap inmem.empty] in H.
      by rewrite lookup_empty in H.
    + intros k1 k2 v1 v2 H. cbn [inmem.nonceMap inmem.empty] in H.
      by rewrite lookup_empty in H.
  - destruct c as [rnd now newid action uid expiresIn|now token action uid
                   |newid token|now newid token action uid|action uid|now];
      cbn [run].
    + by apply store_ok_New.
    + by rewrite (proj1 (Check_mutates_nothing_aux now token action uid) s).
    + by apply store_ok_Consume.
    + unfold inmem.CheckThenConsume.
      pose proof (proj1 (Check_mutates_nothing_aux now token action uid) s) as HC.
      destruct (inmem.Check now token action uid s) as [[e|] s1]; cbn [snd] in *.
      * by rewrite HC.
      * apply store_ok_Consume. by rewrite HC.
    + unfold inmem.Get. by repeat case_bool_decide.
    + apply (store_ok_submap (inmem.nonceMap s)); [|done].
      intros k v H. rewrite inmem_sweep_lookup in H by done.
      destruct (inmem.nonceMap s !! k) as [v0|]; [|done]. simpl in H.
      by destruct (Before _ _).
Qed.

(** A New and a Consume of its token. *)
Lemma reachable_store_ok_witness :
  at_most_one_valid
    (inmem.nonceMap
       (run map_to_list (CallConsume 11 testToken)
          (run map_to_list
             (CallNew (Ok (repeat 0 16)) (1 * Second + 5) 9
                "reset-password" 1 Minute)
             inmem.empty))).
Proof.
  apply (reachable_store_ok map_to_list); [exact visits_all_map_to_list|].
  apply reachable_call; [|exact I].
  apply reachable_call; [apply reachable_empty|].
  intros k v H. cbn [inmem.nonceMap inmem.empty] in H.
  rewrite lookup_empty in H. discriminate H.
Defined.

(** ** More on the sweep *)

(** X14. A sweep removes no nonce that is still good: a record that the
    sweep at [now] removes is refused by checkNonce at every instant
    from [now] on, for any action and user. At the boundary the two
    tests differ: a record whose ExpiresAt is exactly [now] is kept by
    the sweep, though checkNonce at [now] already refuses it. *)
Theorem sweep_spares_the_living (now : Time) :
  (forall order s k v,
      visits_all order ->
      inmem.nonceMap s !! k = Some v ->
      (inmem.nonceMap (inmem.sweep order now s) !! k = None ->
       forall now' a u, now <= now' -> checkNonce now' v a u <> None)
      /\ (ExpiresAt v = now ->
          inmem.nonceMap (inmem.sweep order now s) !! k = Some v
          /\ forall a u, checkNonce now v a u <> None))
  /\ (forall d d' r,
      healthy d ->
      sqlx.sweep now d = Some d' ->
      r ∈ sqlx.rows d ->
      (r ∉ sqlx.rows d' ->
       forall now' a u, now <= now' -> checkNonce now' r a u <> None)
      /\ (ExpiresAt r = now ->
          r ∈ sqlx.rows d' /\ forall a u, checkNonce now r a u <> None)).
Proof.
  assert (Hdead : forall v now' a u,
             ExpiresAt v <= now' -> checkNonce now' v a u <> None).
  { intros v now' a u Hle H. apply checkNonce_None in H. lia. }
  split.
  - intros order s k v Hperm Hk.
    rewrite inmem_sweep_lookup, Hk by done. simpl. unfold Before.
    destruct (ExpiresAt v <? now) eqn:E.
    + apply Z.ltb_lt in E. split; [|lia].
      intros _ now' a u Hle. apply Hdead. lia.
    + apply Z.ltb_ge in E. split; [done|].
      intros He. split; [done|]. intros a u. apply Hdead. lia.
  - intros d d' r Hh Hs Hr.
    destruct (sqlx_sweep_healthy now d Hh) as (d'' & Hs' & Hrows & _).
    rewrite Hs in Hs'. injection Hs' as <-.
    assert (Hin : r ∈ sqlx.rows d' <-> now <= ExpiresAt r).
    { rewrite Hrows. unfold sqlx.sqlDelete.
      rewrite list_elem_of_In, filter_In, <- list_elem_of_In. unfold Before.
      rewrite negb_true_iff, Z.ltb_ge. tauto. }
    split.
    + intros Hout now' a u Hle. apply Hdead.
      destruct (decide (now <= ExpiresAt r)); [|lia].
      exfalso. by apply Hout, Hin.
    + intros He. split; [apply Hin; lia|]. intros a u. apply Hdead. lia.
Qed.

Lemma sweep_spares_the_living_witness :
  inmem.nonceMap
    (inmem.sweep map_to_list (61 * Second)
       (inmem.mkStore {[ testToken := testNonce ]} 0)) !! testToken
  = Some testNonce
  /\ forall a u, checkNonce (61 * Second) testNonce a u <> None.
Proof.
  apply (proj1 (sweep_spares_the_living (61 * Second)) map_to_list
           (inmem.mkStore {[ testToken := testNonce ]} 0) testToken testNonce
           visits_all_map_to_list).
  - apply lookup_singleton_eq.
  - reflexivity.
Defined.

Lemma sqlDelete_twice (now1 now2 : Time) (rs : list Nonce) :
  sqlx.sqlDelete now2 (sqlx.sqlDelete now1 rs)
  = sqlx.sqlDelete (Z.max now1 now2) rs.
Proof.
  unfold sqlx.sqlDelete, Before.
  induction rs as [|r rs IH]; [done|]. simpl.
  destruct (ExpiresAt r <? now1) eqn:E1; simpl.
  - rewrite IH. apply Z.ltb_lt in E1.
    rewrite (proj2 (Z.ltb_lt _ _)) by lia. done.
  - apply Z.ltb_ge in E1.
    destruct (ExpiresAt r <? now2) eqn:E2; simpl.
    + apply Z.ltb_lt in E2. rewrite (proj2 (Z.ltb_lt _ _)) by lia. simpl. done.
    + apply Z.ltb_ge in E2. rewrite (proj2 (Z.ltb_ge _ _)) by lia. simpl.
      by rewrite IH.
Qed.

(** X15. Sweeps add up: a sweep after a sweep leaves the records that
    one sweep at the later of the two instants leaves; in particular a
    second sweep at the same instant, or at an earlier one, removes
    nothing more. *)
Theorem sweeps_add_up (now1 now2 : Time) :
  (forall order s,
      visits_all order ->
      inmem.nonceMap (inmem.sweep order now2 (inmem.sweep order now1 s))
      = inmem.nonceMap (inmem.sweep order (Z.max now1 now2) s))
  /\ (forall d d1 d2,
      healthy d ->
      sqlx.sweep now1 d = Some d1 ->
      sqlx.sweep now2 d1 = Some d2 ->
      exists d3, sqlx.sweep (Z.max now1 now2) d = Some d3
                 /\ sqlx.rows d2 = sqlx.rows d3).
Proof.
  split.
  - intros order s Hperm. apply map_eq. intros k.
    rewrite !inmem_sweep_lookup by done.
    destruct (inmem.nonceMap s !! k) as [v|]; [|done]. simpl. unfold Before.
    destruct (ExpiresAt v <? now1) eqn:E1; simpl.
    + apply Z.ltb_lt in E1. rewrite (proj2 (Z.ltb_lt _ _)) by lia. done.
    + apply Z.ltb_ge in E1. destruct (ExpiresAt v <? now2) eqn:E2.
      * apply Z.ltb_lt in E2. rewrite (proj2 (Z.ltb_lt _ _)) by lia. done.
      * apply Z.ltb_ge in E2. rewrite (proj2 (Z.ltb_ge _ _)) by lia. done.
  - intros d d1 d2 Hh H1 H2.
    destruct (sqlx_sweep_healthy now1 d Hh) as (d1' & H1' & Hr1 & Hf1).
    rewrite H1 in H1'. injection H1' as <-.
    destruct (sqlx_sweep_healthy now2 d1 (healthy_fault_eq d d1 Hh Hf1))
      as (d2' & H2' & Hr2 & _).
    rewrite H2 in H2'. injection H2' as <-.
    destruct (sqlx_sweep_healthy (Z.max now1 now2) d Hh) as (d3 & H3 & Hr3 & _).
    exists d3. split; [done|]. by rewrite Hr2, Hr1, Hr3, sqlDelete_twice.
Qed.

Lemma sweeps_add_up_witness :
  inmem.nonceMap
    (inmem.sweep map_to_list (62 * Second)
       (inmem.sweep map_to_list (62 * Second)
          (inmem.mkStore {[ testToken := testNonce ]} 0)))
  = inmem.nonceMap
      (inmem.sweep map_to_list (Z.max (62 * Second) (62 * Second))
         (inmem.mkStore {[ testToken := testNonce ]} 0)).
Proof.
  exact (proj1 (sweeps_add_up (62 * Second) (62 * Second)) map_to_list
           (inmem.mkStore {[ testToken := testNonce ]} 0)
           visits_all_map_to_list).
Defined.

(** ** saveNonce *)

(** X16. In the in-memory service a saved nonce is found again under
    its token: getNonce of the token returns the nonce as saveNonce
    returned it, which is the nonce given, with the new identifier when
    it had none; the entries under other tokens are not touched. *)
Theorem inmem_save_then_get (newid : UUID) (n : Nonce) (s : inmem.inMemStore) :
  (inmem.getNonce (Token n) (inmem.saveNonce newid n s).2).1
  = Ok (inmem.saveNonce newid n s).1
  /\ Token (inmem.saveNonce newid n s).1 = Token n
  /\ (ID n <> uuid.Nil -> (inmem.saveNonce newid n s).1 = n)
  /\ (ID n = uuid.Nil -> (inmem.saveNonce newid n s).1 = set_ID n newid)
  /\ (forall k, k <> Token n ->
        (inmem.getNonce k (inmem.saveNonce newid n s).2).1
        = (inmem.getNonce k s).1).
Proof.
  unfold inmem.saveNonce, inmem.getNonce.
  cbn [fst snd inmem.nonceMap inmem.RLock inmem.Lock inmem.setMap].
  assert (Ht : Token (if bool_decide (ID n = uuid.Nil) then set_ID n newid else n)
               = Token n) by (by case_bool_decide).
  rewrite Ht, lookup_insert_eq. split; [done|]. split; [done|].
  split; [intros H; by rewrite bool_decide_eq_false_2|].
  split; [intros H; by rewrite bool_decide_eq_true_2|].
  intros k Hk. rewrite lookup_insert_ne by done.
  by destruct (inmem.nonceMap s !! k).
Qed.

Lemma sqlUpdate_lookup (n : Nonce) (rs : list Nonce) (i : nat) :
  sqlx.sqlUpdate n rs !! i
  = (fun r => if bool_decide (ID r = ID n)
              then set_IsValid (set_IsUsed r (IsUsed n)) (IsValid n) else r)
      <$> rs !! i.
Proof. unfold sqlx.sqlUpdate. apply list_lookup_fmap. Qed.

(** X17. saveNonce of the database service inserts or updates. A nonce
    without identifier is given the new one and appended as a row. A
    nonce with an identifier changes, in the rows of that identifier,
    the columns is_used and is_valid and nothing else; the number of
    rows stays, and when no row has the identifier nothing is stored
    though no error is returned. (When the calls succeed.) *)
Theorem sqlx_saveNonce_upsert (newid : UUID) (n : Nonce) (d : sqlx.DB) :
  healthy d ->
  (ID n = uuid.Nil ->
   (sqlx.saveNonce newid n d).1 = Ok (set_ID n newid)
   /\ sqlx.rows (sqlx.saveNonce newid n d).2 = sqlx.rows d ++ [set_ID n newid])
  /\ (ID n <> uuid.Nil ->
      (sqlx.saveNonce newid n d).1 = Ok n
      /\ length (sqlx.rows (sqlx.saveNonce newid n d).2) = length (sqlx.rows d)
      /\ (forall (i : nat) r, sqlx.rows d !! i = Some r ->
            exists r',
              sqlx.rows (sqlx.saveNonce newid n d).2 !! i = Some r'
              /\ ID r' = ID r /\ UserID r' = UserID r /\ Token r' = Token r
              /\ Action r' = Action r /\ Salt r' = Salt r
              /\ CreatedAt r' = CreatedAt r /\ ExpiresAt r' = ExpiresAt r
              /\ (ID r = ID n -> IsUsed r' = IsUsed n /\ IsValid r' = IsValid n)
              /\ (ID r <> ID n -> r' = r))
      /\ ((forall r, r ∈ sqlx.rows d -> ID r <> ID n) ->
          sqlx.rows (sqlx.saveNonce newid n d).2 = sqlx.rows d)).
Proof.
  intros Hh. split.
  - intros Hid. unfold sqlx.saveNonce. rewrite bool_decide_eq_true_2 by done.
    healthy_calls Hh. done.
  - intros Hid.
    assert (E : sqlx.saveNonce newid n d
                = (Ok n, sqlx.setRows (sqlx.tick (sqlx.tick (sqlx.tick d)))
                           (sqlx.sqlUpdate n (sqlx.rows d)))).
    { unfold sqlx.saveNonce. rewrite bool_decide_eq_false_2 by done.
      healthy_calls Hh. done. }
    rewrite E. cbn [fst snd sqlx.rows sqlx.setRows].
    split; [done|]. split; [unfold sqlx.sqlUpdate; by rewrite length_map|].
    split.
    + intros i r Hi. rewrite sqlUpdate_lookup, Hi. simpl.
      eexists. split; [reflexivity|].
      case_bool_decide; simpl; repeat split; done.
    + intros Hnone. unfold sqlx.sqlUpdate.
      rewrite <- (map_id (sqlx.rows d)) at 2. apply map_ext_in.
      intros r Hr. apply list_elem_of_In in Hr.
      by rewrite bool_decide_eq_false_2 by (by apply Hnone).
Qed.

(** Marking [testNonce] used through its identifier, and a nonce whose
    identifier no row has. *)
Lemma sqlx_saveNonce_upsert_witness :
  sqlx.rows (sqlx.saveNonce 0 (set_IsUsed testNonce true)
               (sqlx.mkDB [testNonce] 0 (fun _ => false))).2
  = [set_IsUsed testNonce true]
  /\ sqlx.rows (sqlx.saveNonce 0 (set_ID testNonce 77)
                  (sqlx.mkDB [testNonce] 0 (fun _ => false))).2
     = [testNonce].
Proof.
  split.
  - reflexivity.
  - apply (proj2 (sqlx_saveNonce_upsert 0 (set_ID testNonce 77)
                    (sqlx.mkDB [testNonce] 0 (fun _ => false))
                    (fun _ => eq_refl))).
    + discriminate.
    + intros r Hr. apply list_elem_of_singleton in Hr. subst r. discriminate.
Defined.

(** ** The sweeper *)

Lemma inmem_sweeper_step (order : gmap string Nonce -> list (string * Nonce))
    (s s' : sweeper.state inmem.inMemStore) :
  visits_all order ->
  sweeper.step (inmem_sweeper order) s s' ->
  sweeper.at_pc s <> sweeper.Panicked ->
  sweeper.at_pc s' <> sweeper.Panicked
  /\ forall k v, inmem.nonceMap (sweeper.store s') !! k = Some v ->
                 inmem.nonceMap (sweeper.store s) !! k = Some v.
Proof.
  intros Hperm Hs Hpc. destruct Hs as [s|s k|s now st' Hat Hn Hsw|s now Hat Hn Hsw|s];
    cbn [sweeper.at_pc sweeper.store]; try done.
  - unfold inmem_sweeper in Hsw. injection Hsw as <-. split; [done|].
    intros k v H. rewrite inmem_sweep_lookup in H by done.
    destruct (inmem.nonceMap (sweeper.store s) !! k) as [v0|]; [|done].
    simpl in H. by destruct (Before _ _).
Qed.

(** X18. The sweeper of the in-memory service only deletes: in every
    state reached from the start of the service, each record of the
    store was in the store the service started with, unchanged; the
    sweeper never panics; and once it has returned, on a Shutdown, the
    store is swept no more. *)
Theorem inmem_sweeper_only_deletes
    (order : gmap string Nonce -> list (string * Nonce))
    (st : inmem.inMemStore) (s : sweeper.state inmem.inMemStore) :
  visits_all order ->
  sweeper.steps (inmem_sweeper order) (sweeper.start st) s ->
  sweeper.at_pc s <> sweeper.Panicked
  /\ (forall k v, inmem.nonceMap (sweeper.store s) !! k = Some v ->
                  inmem.nonceMap st !! k = Some v)
  /\ (sweeper.at_pc s = sweeper.Returned ->
      forall s', sweeper.steps (inmem_sweeper order) s s' ->
                 sweeper.store s' = sweeper.store s).
Proof.
  intros Hperm Hsteps.
  assert (Hgen : forall s1 s2 : sweeper.state inmem.inMemStore,
             sweeper.steps (inmem_sweeper order) s1 s2 ->
             sweeper.at_pc s1 <> sweeper.Panicked ->
             sweeper.at_pc s2 <> sweeper.Panicked
             /\ forall k v, inmem.nonceMap (sweeper.store s2) !! k = Some v ->
                            inmem.nonceMap (sweeper.store s1) !! k = Some v).
  { induction 1 as [|s1 s2 s3 Hs _ IH]; intros Hpc; [done|].
    destruct (inmem_sweeper_step order _ _ Hperm Hs Hpc) as [Hpc2 Hsub].
    destruct (IH Hpc2) as [Hpc3 Hsub3]. split; [done|].
    intros k v H. by apply Hsub, Hsub3. }
  destruct (Hgen _ _ Hsteps ltac:(done)) as [Hpc Hsub].
  split; [done|]. split; [done|].
  intros Hret s' Hs'. by destruct (returned_steps _ _ _ Hs' Hret) as (_ & _ & _ & ?).
Qed.

Lemma inmem_sweeper_only_deletes_witness :
  sweeper.at_pc (Shutdown stopped) <> sweeper.Panicked
  /\ forall k v,
      inmem.nonceMap (sweeper.store (Shutdown stopped)) !! k = Some v ->
      inmem.nonceMap inmem.empty !! k = Some v.
Proof.
  destruct (inmem_sweeper_only_deletes map_to_list inmem.empty (Shutdown stopped)
              visits_all_map_to_list)
    as (Hpc & Hsub & _).
  - eapply sweeper.steps_step;
      [apply (sweeper.step_Shutdown _ (sweeper.start inmem.empty))|].
    eapply sweeper.steps_step;
      [eapply (sweeper.step_quit _ (Shutdown (sweeper.start inmem.empty)));
       reflexivity|].
    eapply sweeper.steps_step; [apply sweeper.step_Shutdown|].
    apply sweeper.steps_refl.
  - split; [exact Hpc|exact Hsub].
Defined.

(** ** Get after Consume *)

Lemma newNonce_CreatedAt (rawSalt : list Z) (now : Time) (action : string)
    (uid : UUID) (expiresIn : Duration) (n : Nonce) :
  newNonce (Ok rawSalt) now action uid expiresIn = Ok n -> CreatedAt n = Unix now.
Proof. intros [= <-]. reflexivity. Qed.

(** X19. Get looks at neither IsUsed nor ExpiresAt: in the in-memory
    service, after New and a Consume of the new token, Get for the pair
    still returns the nonce, now marked used. (The identifier of New is
    fresh and the clock at least one second past the epoch.) *)
Theorem Get_returns_consumed (order : gmap string Nonce -> list (string * Nonce))
    (rawSalt : list Z) (now : Time) (newid newid' : UUID)
    (action : string) (uid : UUID) (expiresIn : Duration) (s : inmem.inMemStore) :
  visits_all order ->
  fresh_in_map newid (inmem.nonceMap s) ->
  Second <= now ->
  exists n s1 n' s2,
    inmem.New order (Ok rawSalt) now newid action uid expiresIn s = (Ok n, s1)
    /\ inmem.Consume newid' (Token n) s1 = (Ok n', s2)
    /\ consumed n n'
    /\ (inmem.Get order action uid s2).1 = Ok n'.
Proof.
  intros Hperm Hfresh Hnow.
  destruct (inmem_New_invalidates order rawSalt now newid action uid expiresIn
              s Hperm Hfresh)
    as (n & s1 & HNew & Hl & Hv & Hu & Ha & Huniq & _).
  destruct (newNonce (Ok rawSalt) now action uid expiresIn) as [n0|] eqn:Hn0;
    [|done].
  pose proof (inmem_New_result order rawSalt now newid action uid expiresIn s
                n0 Hn0) as Hr.
  rewrite HNew in Hr. cbn [fst] in Hr. injection Hr as Hn.
  assert (Ht : checkToken (Token n) = None).
  { rewrite Hn. cbn [Token set_ID].
    by eapply (New_token_passes_checkToken_aux rawSalt now action uid expiresIn). }
  assert (Hused : IsUsed n = false).
  { rewrite Hn. cbn [IsUsed set_ID]. by destruct (newNonce_Ok _ _ _ _ _ _ Hn0) as (_ & _ & _ & ? & _). }
  assert (Hc : 0 < CreatedAt n).
  { rewrite Hn. cbn [CreatedAt set_ID].
    rewrite (newNonce_CreatedAt _ _ _ _ _ _ Hn0). unfold Unix.
    apply Z.div_str_pos. unfold Second in *. lia. }
  pose proof (inmem_Consume_spec newid' (Token n) s1 Ht) as HC.
  rewrite Hl, Hused in HC. destruct HC as (n' & s2 & HC & Hn' & Hm).
  assert (Hcons : consumed n n').
  { rewrite Hn'. unfold consumed. case_bool_decide; simpl; repeat split; done. }
  exists n, s1, n', s2. split; [done|]. split; [done|]. split; [done|].
  destruct Hcons as (_ & Hu' & Ht' & Ha' & _ & Hv' & Hc' & _).
  assert (Hl2 : inmem.nonceMap s2 !! Token n = Some n')
    by (by rewrite Hm, lookup_insert_eq).
  destruct (inmem_Get_spec order action uid s2 Hperm)
    as [[_ Hle]|(k & m & HG & Hk & Ha'' & Hu'' & Hv'' & _)].
  - exists (Token n), n'. split; [done|]. split; congruence.
  - assert (CreatedAt n' <= 0); [|lia].
    apply (Hle (Token n) n'); congruence.
  - rewrite HG. f_equal.
    destruct (decide (k = Token n)) as [->|Hne]; [congruence|].
    rewrite Hm, lookup_insert_ne in Hk by done.
    by destruct (Hne (Huniq _ _ Hk Hv'' Hu'' Ha'')).
Qed.

Lemma Get_returns_consumed_witness :
  exists n s1 n' s2,
    inmem.New map_to_list (Ok (repeat 0 16)) (1 * Second + 5) 9
      "reset-password" 1 Minute inmem.empty = (Ok n, s1)
    /\ inmem.Consume 11 (Token n) s1 = (Ok n', s2)
    /\ consumed n n'
    /\ (inmem.Get map_to_list "reset-password" 1 s2).1 = Ok n'.
Proof.
  apply (Get_returns_consumed map_to_list (repeat 0 16) (1 * Second + 5) 9 11
           "reset-password" 1 Minute inmem.empty visits_all_map_to_list).
  - intros k v H. cbn [inmem.nonceMap inmem.empty] in H.
    rewrite lookup_empty in H. discriminate H.
  - discriminate.
Defined.
